(** * clean_MSA_loci: masking the columns of an alignment that are gaps in
      a reference sequence

    A shallow embedding of [clean_MSA_loci.py] (class [Sequence] and the
    script body) and the properties of its record loader, range
    extractor, mask applier and writer.

    Conventions of the embedding.
    - Python text is a list of characters ([str]); a character is a code
      point below 256.  The field names of the range dictionaries
      (['id'], ['start'], ['end'], ['total']) and exception messages are
      [string] literals.
    - Python integers are [Z].
    - [self.seqdict] is an insertion-ordered dictionary: an association
      list whose keys are pairwise distinct, updated in place by
      [dict_set].
    - A range dictionary is a [gmap string Z].
    - A file object is the list of the lines that [readline] has still to
      return.  Files are opened in text mode (Python 3, on POSIX): a line
      ends at a line feed, at a carriage return or at the pair of them,
      and [readline] returns it with a line feed as its terminator; what
      is written is stored as it is.
    - An exception leaves the object in the state it had when it was
      raised: stateful methods return the outcome together with the
      dictionary. *)

From Stdlib Require Import Ascii String ZArith Lia.
From stdpp Require Import base list gmap strings.

Local Open Scope Z_scope.

(** ** Text *)

Abbreviation str := (list ascii).

Definition text (s : string) : str := list_ascii_of_string s.

Definition LF : ascii := ascii_of_nat 10.
Definition CR : ascii := ascii_of_nat 13.
Definition GAP : ascii := ascii_of_nat 45.      (* '-' *)
Definition MARKER : ascii := ascii_of_nat 62.   (* '>' *)

(** [str.isspace] of Python 3 on the code points below 256. *)
Definition whitespace : list nat :=
  [9; 10; 11; 12; 13; 28; 29; 30; 31; 32; 133; 160]%nat.

Definition isspace (c : ascii) : bool :=
  bool_decide (nat_of_ascii c ∈ whitespace).

Fixpoint lstrip (s : str) : str :=
  match s with
  | [] => []
  | c :: s' => if isspace c then lstrip s' else s
  end.

Definition rstrip (s : str) : str := rev (lstrip (rev s)).

(** [s.strip()] *)
Definition strip (s : str) : str := rstrip (lstrip s).

(** [s.startswith('>')] *)
Definition startswith_marker (s : str) : bool :=
  match s with
  | c :: _ => bool_decide (c = MARKER)
  | [] => false
  end.

(** Python's index clamping for a slice bound [i] on a sequence of
    length [len]. *)
Definition slice_bound (len i : Z) : nat :=
  Z.to_nat (if i <? 0 then Z.max 0 (i + len) else Z.min i len).

(** [s[:i]] *)
Definition slice_to (s : str) (i : Z) : str :=
  take (slice_bound (Z.of_nat (length s)) i) s.

(** [s[i:]] *)
Definition slice_from (s : str) (i : Z) : str :=
  drop (slice_bound (Z.of_nat (length s)) i) s.

(** ['-' * n] *)
Definition gaps (n : Z) : str := replicate (Z.to_nat n) GAP.

(** ** Exceptions and results *)

Inductive exn : Type :=
| Exception (msg : string)
| IndexError
| KeyError (key : string)
| AttributeError (name : string).

Inductive result (A : Type) : Type :=
| Done (a : A)
| Raised (e : exn).
Arguments Done {A} a.
Arguments Raised {A} e.

#[global] Instance result_ret : MRet result := λ A a, Done a.

#[global] Instance result_bind : MBind result := λ A B k r,
  match r with
  | Done a => k a
  | Raised e => Raised e
  end.

(** ** The record dictionary [self.seqdict] *)

Abbreviation seqdict := (list (str * str)).

Definition dict_keys (d : seqdict) : list str := d.*1.

(** [d[k]] *)
Fixpoint dict_get (d : seqdict) (k : str) : option str :=
  match d with
  | [] => None
  | (k', v) :: d' => if decide (k' = k) then Some v else dict_get d' k
  end.

(** [d[k] = v]: an existing key keeps its place, a new key goes last. *)
Fixpoint dict_set (d : seqdict) (k v : str) : seqdict :=
  match d with
  | [] => [(k, v)]
  | (k', v') :: d' =>
      if decide (k' = k) then (k', v) :: d' else (k', v') :: dict_set d' k v
  end.

(** [list(d.keys())[-1]] *)
Definition last_key (d : seqdict) : result str :=
  match last (dict_keys d) with
  | Some k => Done k
  | None => Raised IndexError
  end.

(** ** The file object *)

Abbreviation file := (list str).

(** The lines of a text as [readline] returns them in text mode: a line
    ends at a line feed, at a carriage return, or at a carriage return
    followed by a line feed, and is returned with one line feed as its
    terminator; a last line without terminator is returned as it is. *)
Fixpoint lines_from (cur : str) (s : str) : file :=
  match s with
  | [] => match cur with [] => [] | _ => [cur] end
  | c :: s' =>
      if decide (c = LF) then (cur ++ [LF]) :: lines_from [] s'
      else if decide (c = CR) then
        match s' with
        | c' :: s'' =>
            if decide (c' = LF) then (cur ++ [LF]) :: lines_from [] s''
            else (cur ++ [LF]) :: lines_from [] s'
        | [] => [cur ++ [LF]]
        end
      else lines_from (cur ++ [c]) s'
  end.

(** A text without line feed and carriage return: it stays on one line. *)
Definition no_break (s : str) : Prop := (LF ∉ s) ∧ (CR ∉ s).

#[global] Instance no_break_dec (s : str) : Decision (no_break s).
Proof. unfold no_break. apply _. Defined.

(** [open(filename, 'r')] on a file whose content is [s]. *)
Definition open_file (s : str) : file := lines_from [] s.

(** [self.file.readline()]: the empty string at the end of the file. *)
Definition readline (f : file) : str * file :=
  match f with
  | [] => ([], [])
  | l :: f' => (l, f')
  end.

(** [next_line]: [None] is the method's [False]; [Some (line, f)] is
    [True] with [self.line = line] and the file advanced to [f]. *)
Definition next_line (f : file) : option (str * file) :=
  let '(raw, f') := readline f in
  match strip raw with
  | [] => None
  | line => Some (line, f')
  end.

(** The body of the [while] loop of [read_file] for one line. *)
Definition read_line (line : str) (d : seqdict) : result unit * seqdict :=
  if startswith_marker line then (Done (), dict_set d line [])
  else
    match last_key d with
    | Raised e => (Raised e, d)
    | Done last_key =>
        match dict_get d last_key with
        | None => (Raised (KeyError (string_of_list_ascii last_key)), d)
        | Some v => (Done (), dict_set d last_key (v ++ line))
        end
    end.

(** The [while self.next_line()] loop of [read_file] (lines 89-94). *)
Fixpoint read_records (f : file) (d : seqdict) : result unit * seqdict :=
  match f with
  | [] => (Done (), d)
  | raw :: f' =>
      match strip raw with
      | [] => (Done (), d)
      | line =>
          match read_line line d with
          | (Done _, d') => read_records f' d'
          | (Raised e, d') => (Raised e, d')
          end
      end
  end.

(** ** The range extractor *)

Abbreviation range := (gmap string Z).

(** [r[k]] on a range dictionary. *)
Definition range_get (r : range) (k : string) : result Z :=
  match r !! k with
  | Some z => Done z
  | None => Raised (KeyError k)
  end.

(** [l[-1]] *)
Definition list_last (l : list range) : result range :=
  match last l with
  | Some r => Done r
  | None => Raised IndexError
  end.

(** Writing through the alias [temp_dict = l[-1]]: the last element of
    the list is the dictionary that is updated. *)
Definition set_last (l : list range) (r : range) : list range :=
  <[pred (length l) := r]> l.

(** The variables of the scan of [process_ref_genome]. *)
Record scan : Type := mkScan {
  flank_range_list : list range;
  pos : Z;
  prev_char : bool;
  range_num : Z
}.

Definition scan_init : scan :=
  {| flank_range_list := []; pos := 0; prev_char := false; range_num := 1 |}.

(** One iteration of [for char in seq] (lines 120-136). *)
Definition scan_char (char : ascii) (s : scan) : result scan :=
  if decide (char = GAP) then
    let current_char := true in
    if prev_char s then
      Done {| flank_range_list := flank_range_list s; pos := pos s + 1;
              prev_char := current_char; range_num := range_num s |}
    else
      Done {| flank_range_list :=
                flank_range_list s ++
                  [ <["start" := pos s]> {[ "id" := range_num s ]} ];
              pos := pos s + 1;
              prev_char := current_char; range_num := range_num s + 1 |}
  else
    let current_char := false in
    if prev_char s then
      temp_dict ← list_last (flank_range_list s);
      let temp_dict := <["end" := pos s - 1]> temp_dict in
      e ← range_get temp_dict "end";
      st ← range_get temp_dict "start";
      let temp_dict := <["total" := e - st + 1]> temp_dict in
      Done {| flank_range_list := set_last (flank_range_list s) temp_dict;
              pos := pos s + 1;
              prev_char := current_char; range_num := range_num s |}
    else
      Done {| flank_range_list := flank_range_list s; pos := pos s + 1;
              prev_char := current_char; range_num := range_num s |}.

Fixpoint scan_seq (seq : str) (s : scan) : result scan :=
  match seq with
  | [] => Done s
  | char :: seq' => s' ← scan_char char s; scan_seq seq' s'
  end.

Definition not_unique : string :=
  "Argument for name of reference genome is not unique enough, resulting in multiple genomes being used. Please try another argument that is more specific.".

Definition not_found : string :=
  "Could not find the specified reference genome. Please check to make sure the argument matches name of reference genome.".

(** The two failures of the reference lookup, under the names of the
    specification. *)
Definition AmbiguousReference : exn := Exception not_unique.
Definition ReferenceNotFound : exn := Exception not_found.

(** [process_ref_genome] (lines 102-136): the value is the list left in
    [self.flank_range_list]. *)
Definition process_ref_genome (d : seqdict) : result (list range) :=
  let ref_seq_num := length (dict_keys d) in
  if decide (1 < ref_seq_num)%nat then Raised AmbiguousReference
  else if decide (ref_seq_num = 0%nat) then Raised ReferenceNotFound
  else
    match d !! 0%nat with
    | None => Raised IndexError
    | Some (_, seq) => s ← scan_seq seq scan_init; Done (flank_range_list s)
    end.

(** ** The mask applier *)

(** Lines 146-150 for one range:
    [value[:start] + '-' * total + value[end+1:]]. *)
Definition mask_range (each_range : range) (value : str) : result str :=
  start ← range_get each_range "start";
  end_ ← range_get each_range "end";
  total ← range_get each_range "total";
  let add := gaps total in
  Done (slice_to value start ++ add ++ slice_from value (end_ + 1)).

(** [for each_range in flank_ranges] for the item [(key, value)]. *)
Fixpoint ranges_loop (flank_ranges : list range) (key value : str)
    (d : seqdict) : result unit * seqdict :=
  match flank_ranges with
  | [] => (Done (), d)
  | each_range :: flank_ranges' =>
      match mask_range each_range value with
      | Raised e => (Raised e, d)
      | Done new =>
          let d' := dict_set d key new in
          match dict_get d' key with
          | None => (Raised (KeyError (string_of_list_ascii key)), d')
          | Some value' => ranges_loop flank_ranges' key value' d'
          end
      end
  end.

(** The value that the inner loop leaves for a sequence [value]. *)
Fixpoint mask_all (flank_ranges : list range) (value : str) : result str :=
  match flank_ranges with
  | [] => Done value
  | each_range :: flank_ranges' =>
      value' ← mask_range each_range value; mask_all flank_ranges' value'
  end.

(** [for key, value in self.seqdict.items()]: the iteration reads item
    [i] of the dictionary as it is when the iteration reaches it; [n]
    counts the items still to visit. *)
Fixpoint items_loop (n i : nat) (flank_ranges : list range) (d : seqdict)
    : result unit * seqdict :=
  match n with
  | O => (Done (), d)
  | S n' =>
      match d !! i with
      | None => (Done (), d)
      | Some (key, value) =>
          match ranges_loop flank_ranges key value d with
          | (Done _, d') => items_loop n' (S i) flank_ranges d'
          | (Raised e, d') => (Raised e, d')
          end
      end
  end.

(** [process_aligned_seq] (lines 138-151). *)
Definition process_aligned_seq (flank_ranges : list range) (d : seqdict)
    : result unit * seqdict :=
  items_loop (length d) 0 flank_ranges d.

(** ** The writer *)

(** The text written by [save_output] (lines 164-169). *)
Definition save_output (d : seqdict) : str :=
  flat_map (λ '(key, value), key ++ [LF] ++ value ++ [LF]) d.

(** ** The object and the script *)

(** The attributes of a [Sequence] object that the methods update.  The
    file handle is read by [read_file] only, once per object, and is
    passed to it. *)
Record Sequence : Type := mkSequence {
  self_seqdict : seqdict;
  self_flank_range_list : option (list range)
}.

(** [Sequence(filename)] *)
Definition Sequence_init : Sequence :=
  {| self_seqdict := []; self_flank_range_list := None |}.

(** [read_file(seq_type, flank_ranges)] (lines 81-100) on the object
    [self] whose file handle is [f]. *)
Definition read_file (f : file) (seq_type : string)
    (flank_ranges : list range) (self : Sequence) : result unit * Sequence :=
  match read_records f (self_seqdict self) with
  | (Raised e, d) =>
      (Raised e, {| self_seqdict := d;
                     self_flank_range_list := self_flank_range_list self |})
  | (Done _, d) =>
      let after_reference :=
        if String.eqb seq_type "reference_genome" then
          match process_ref_genome d with
          | Raised e =>
              (Raised e,
               {| self_seqdict := d;
                  self_flank_range_list := self_flank_range_list self |})
          | Done l =>
              (Done (), {| self_seqdict := d; self_flank_range_list := Some l |})
          end
        else
          (Done (), {| self_seqdict := d;
                       self_flank_range_list := self_flank_range_list self |})
      in
      match after_reference with
      | (Raised e, self') => (Raised e, self')
      | (Done _, self') =>
          if String.eqb seq_type "aligned_sequences" then
            let '(r, d') := process_aligned_seq flank_ranges (self_seqdict self') in
            (r, {| self_seqdict := d';
                   self_flank_range_list := self_flank_range_list self' |})
          else (Done (), self')
      end
  end.

(** What a run of the script leaves behind: how it ended, the alignment
    object, and the content of the output file if one was created. *)
Record run : Type := mkRun {
  outcome : result unit;
  MSA : Sequence;
  output : option str
}.

(** The script body (lines 175-187).  [msa_text] is the content of the
    alignment file; [ref_text] is the content of the reference file that
    [obtain_reference] has the shell write (an external command). *)
Definition main (msa_text ref_text : str) : run :=
  let MSA := Sequence_init in
  let ref := Sequence_init in
  match read_file (open_file ref_text) "reference_genome" [] ref with
  | (Raised e, _) => {| outcome := Raised e; MSA := MSA; output := None |}
  | (Done _, ref) =>
      match self_flank_range_list ref with
      | None =>
          {| outcome := Raised (AttributeError "flank_range_list");
             MSA := MSA; output := None |}
      | Some flank_ranges =>
          match read_file (open_file msa_text) "aligned_sequences"
                  flank_ranges MSA with
          | (Raised e, MSA) =>
              {| outcome := Raised e; MSA := MSA; output := None |}
          | (Done _, MSA) =>
              {| outcome := Done (); MSA := MSA;
                 output := Some (save_output (self_seqdict MSA)) |}
          end
      end
  end.

(** ** The loader in the words of the specification *)

(** Section 4.1 of the specification: a header line starts a new record
    with an empty sequence, any other non-blank line is appended to the
    sequence of the most recently started record, a blank line ends the
    scan.  The records are kept in the order in which they were started,
    so the most recently started one is the last.  The specification
    leaves a sequence line before any header undefined: [None]. *)
Definition append_last (line : str) (d : seqdict) : option seqdict :=
  match reverse d with
  | [] => None
  | (k, v) :: r => Some (reverse r ++ [(k, v ++ line)])
  end.

Fixpoint spec_load (lines : list str) (d : seqdict) : option seqdict :=
  match lines with
  | [] => Some d
  | l :: lines' =>
      if decide (l = []) then Some d
      else if startswith_marker l then spec_load lines' (d ++ [(l, [])])
      else d' ← append_last l d; spec_load lines' d'
  end.

(** The lines before the first blank line, and the header lines among
    them. *)
Fixpoint scanned (lines : list str) : list str :=
  match lines with
  | [] => []
  | l :: lines' => if decide (l = []) then [] else l :: scanned lines'
  end.

Definition headers (lines : list str) : list str :=
  filter (λ l, startswith_marker l = true) (scanned lines).

(** The first non-blank line of a file, stripped. *)
Fixpoint first_nonblank (f : file) : option str :=
  match f with
  | [] => None
  | raw :: f' =>
      match strip raw with
      | [] => first_nonblank f'
      | line => Some line
      end
  end.

(** "A first non-blank line that is not a header makes the loader fail
    with an index error, and no record is created." *)
Definition fails_without_header (f : file) : Prop :=
  ∀ line, first_nonblank f = Some line → startswith_marker line = false →
          read_records f [] = (Raised IndexError, []).

(** "The loader follows the words of the specification on every file." *)
Definition loads_as_specified (f : file) : Prop :=
  ∃ d, spec_load (strip <$> f) [] = Some d ∧
       read_records f [] = (Done (), d).

(** A record that the writer and the loader carry unchanged: the key is
    a header line, the sequence is not empty and is no header line, and
    neither has surrounding whitespace, nor a line feed or a carriage
    return inside. *)
Definition plain_line (s : str) : bool :=
  bool_decide (strip s = s) && bool_decide (no_break s).

Definition writable_record (kv : str * str) : bool :=
  startswith_marker kv.1 && plain_line kv.1 &&
  bool_decide (kv.2 ≠ []) && negb (startswith_marker kv.2) && plain_line kv.2.

Definition writable (d : seqdict) : bool := forallb writable_record d.

(** "Reading what was written gives back the dictionary." *)
Definition round_trips (d : seqdict) : Prop :=
  read_records (open_file (save_output d)) [] = (Done (), d).

(** "A reference that ends in a gap run makes the run abort with the
    missing-key error, and no output file is written." *)
Definition aborts_on_trailing_gap (msa_text ref_text : str) : Prop :=
  ∀ k seq,
    read_records (open_file ref_text) [] = (Done (), [(k, seq)]) →
    last seq = Some GAP →
    outcome (main msa_text ref_text) = Raised (KeyError "end") ∧
    output (main msa_text ref_text) = None.

(** ** Closed ranges *)

(** A closed range that lies inside a sequence of length [n]:
    [0 <= start <= end < n] and [total = end - start + 1]. *)
Definition valid_range (n : nat) (r : range) : bool :=
  match r !! "start", r !! "end", r !! "total" with
  | Some s, Some e, Some t =>
      bool_decide (0 ≤ s ∧ s ≤ e ∧ e < Z.of_nat n ∧ t = e - s + 1)
  | _, _, _ => false
  end.

(** A range that has the three keys that the mask applier reads. *)
Definition complete (r : range) : bool :=
  match r !! "start", r !! "end", r !! "total" with
  | Some _, Some _, Some _ => true
  | _, _, _ => false
  end.

(** Column [i] lies inside the range. *)
Definition covers (r : range) (i : nat) : bool :=
  match r !! "start", r !! "end" with
  | Some s, Some e => bool_decide (s ≤ Z.of_nat i ∧ Z.of_nat i ≤ e)
  | _, _ => false
  end.

(** Column [i] lies inside one of the ranges. *)
Definition covered (flank_ranges : list range) (i : nat) : bool :=
  existsb (λ r, covers r i) flank_ranges.

(** Every range is closed and inside every sequence of the dictionary. *)
Definition in_bounds (flank_ranges : list range) (d : seqdict) : bool :=
  forallb (λ '(_, v), forallb (valid_range (length v)) flank_ranges) d.

(** The sequence after masking (the sequence itself where a range lacks
    a key). *)
Definition masked (flank_ranges : list range) (v : str) : str :=
  match mask_all flank_ranges v with
  | Done v' => v'
  | Raised _ => v
  end.

(** The ranges of the reference ["AC--GT--"] with both runs closed. *)
Definition example_ranges : list range :=
  [ {[ "id" := 1; "start" := 2; "end" := 3; "total" := 2 ]};
    {[ "id" := 2; "start" := 6; "end" := 7; "total" := 2 ]} ].

Definition example_store : seqdict :=
  [ (text ">s1", text "TTTTTTTT"); (text ">s2", text "ACGTACGT") ].

(** A range as the extractor leaves it once the gap run has ended. *)
Definition closed (r : range) : Prop :=
  ∃ s e : Z,
    r !! "start" = Some s ∧ r !! "end" = Some e ∧
    r !! "total" = Some (e - s + 1) ∧ 0 ≤ s ≤ e.

(** The range dictionary that opens a gap run. *)
Definition open_range (id start : Z) : range :=
  <["start" := start]> {[ "id" := id ]}.

(** What holds of the scan variables between two iterations: while a
    gap run is open its range is the last of the list and has only [id]
    and [start]; every other range is closed. *)
Definition scan_inv (s : scan) : Prop :=
  0 ≤ pos s ∧
  if prev_char s then
    ∃ l i st, flank_range_list s = l ++ [open_range i st] ∧
              Forall closed l ∧ 0 ≤ st < pos s
  else Forall closed (flank_range_list s).


(** ** Gap runs *)

(** The range dictionary of a gap run once it is closed. *)
Definition closed_range (id s e : Z) : range :=
  <["total" := e - s + 1]> (<["end" := e]> (open_range id s)).

(** The closed ranges of the runs [(start, end)], numbered from 1. *)
Definition number_runs (runs : list (Z * Z)) : list range :=
  imap (λ j '(s, e), closed_range (Z.of_nat j + 1) s e) runs.

(** Column [col] lies inside one of the runs. *)
Definition in_runs (runs : list (Z * Z)) (col : Z) : Prop :=
  ∃ s e, (s, e) ∈ runs ∧ s ≤ col ≤ e.

(** The runs are ascending, any two are separated by a column at least,
    and all lie in the columns [0 .. hi]. *)
Inductive runs_upto : list (Z * Z) → Z → Prop :=
| runs_upto_nil hi : runs_upto [] hi
| runs_upto_snoc runs s e hi :
    runs_upto runs (s - 2) → 0 ≤ s → s ≤ e → e ≤ hi →
    runs_upto (runs ++ [(s, e)]) hi.

(** The scan variables after the characters [p] of the reference: the
    list holds the closed ranges of the gap runs of [p] that have ended,
    followed, while a run is open, by its range; the numbers are
    consecutive. *)
Definition scan_spec (p : str) (s : scan) : Prop :=
  pos s = Z.of_nat (length p) ∧
  prev_char s = match last p with Some c => bool_decide (c = GAP) | None => false end ∧
  ∃ runs,
    if prev_char s then
      ∃ st, flank_range_list s =
              number_runs runs ++ [open_range (Z.of_nat (length runs) + 1) st] ∧
            range_num s = Z.of_nat (length runs) + 2 ∧
            runs_upto runs (st - 2) ∧ 0 ≤ st < Z.of_nat (length p) ∧
            ∀ col : nat, (col < length p)%nat →
              (p !! col = Some GAP ↔ in_runs runs (Z.of_nat col) ∨ st ≤ Z.of_nat col)
    else
      flank_range_list s = number_runs runs ∧
      range_num s = Z.of_nat (length runs) + 1 ∧
      runs_upto runs (Z.of_nat (length p) - 2) ∧
      ∀ col : nat, (col < length p)%nat →
        (p !! col = Some GAP ↔ in_runs runs (Z.of_nat col)).

(** ** Incomplete ranges *)

(** The first key that [mask_range] reads and the range lacks. *)
Definition missing_key (r : range) : option string :=
  match r !! "start", r !! "end", r !! "total" with
  | None, _, _ => Some "start"
  | Some _, None, _ => Some "end"
  | Some _, Some _, None => Some "total"
  | Some _, Some _, Some _ => None
  end.

(** ** File names *)

Definition SLASH : ascii := ascii_of_nat 47.    (* '/' *)

(** [os.path.basename] on a POSIX path: what follows the last ['/']. *)
Fixpoint basename_from (cur p : str) : str :=
  match p with
  | [] => cur
  | c :: p' =>
      if decide (c = SLASH) then basename_from [] p'
      else basename_from (cur ++ [c]) p'
  end.

Definition basename (p : str) : str := basename_from [] p.

(** [self.ref_filename] as [obtain_reference] sets it (lines 75-76). *)
Definition ref_filename (filename : str) : str :=
  text "reference_genome_" ++ basename filename.

(** The name under which [save_output] opens the output file: [out] is
    [args.out] ([None] when the option is absent); the script passes it
    on when it is true, that is, a non-empty string (lines 184-186), and
    [save_output] takes the default name otherwise (lines 160-162). *)
Definition output_name (filename : str) (out : option str) : str :=
  match out with
  | Some (c :: o) => c :: o
  | _ => text "cleaned_loci_" ++ basename filename
  end.

(** ** Lines as the loader keeps them *)

(** No whitespace at either end. *)
Definition trimmed (s : str) : Prop :=
  (∀ c, head s = Some c → isspace c = false) ∧
  (∀ c, last s = Some c → isspace c = false).

(** A record as the loader builds it from the lines of a text. *)
Definition well_kept (kv : str * str) : Prop :=
  (startswith_marker kv.1 = true ∧ trimmed kv.1 ∧ no_break kv.1) ∧
  (startswith_marker kv.2 = false ∧ trimmed kv.2 ∧ no_break kv.2).

(** * Properties *)

(** ** The dictionary *)

Lemma dict_keys_set_elem (d : seqdict) k v :
  k ∈ dict_keys d → dict_keys (dict_set d k v) = dict_keys d.
Proof.
  unfold dict_keys. induction d as [|[k' v'] d IH]; simpl.
  - intros H. inversion H.
  - intros H. destruct (decide (k' = k)); simpl; [done|].
    f_equal. apply IH. apply elem_of_cons in H as [H|H]; [congruence|done].
Qed.

Lemma dict_get_set (d : seqdict) k v : dict_get (dict_set d k v) k = Some v.
Proof.
  induction d as [|[k' v'] d IH]; simpl.
  - by rewrite decide_True.
  - destruct (decide (k' = k)) as [E|E]; simpl.
    + by rewrite decide_True.
    + by rewrite decide_False.
Qed.

Lemma dict_lookup_key (d : seqdict) i k v :
  d !! i = Some (k, v) → k ∈ dict_keys d.
Proof.
  intros H. unfold dict_keys. apply list_elem_of_fmap.
  exists (k, v). split; [done|]. by eapply list_elem_of_lookup_2.
Qed.

Lemma dict_set_lookup (d : seqdict) i k v new :
  NoDup (dict_keys d) → d !! i = Some (k, v) →
  dict_set d k new = <[i := (k, new)]> d.
Proof.
  unfold dict_keys. revert i. induction d as [|[k' v'] d IH]; intros i Hnd Hi.
  - done.
  - simpl in Hnd. apply NoDup_cons in Hnd as [Hk Hnd]. destruct i as [|i]; simpl in *.
    + injection Hi as -> ->. by rewrite decide_True.
    + rewrite decide_False.
      * f_equal. by apply IH.
      * intros ->. apply Hk. by eapply dict_lookup_key.
Qed.

Lemma dict_keys_insert (d : seqdict) i k v new :
  d !! i = Some (k, v) → dict_keys (<[i := (k, new)]> d) = dict_keys d.
Proof.
  intros H. unfold dict_keys. rewrite list_fmap_insert. simpl.
  apply list_insert_id. by rewrite list_lookup_fmap, H.
Qed.

(** ** Masking one sequence *)

Lemma valid_range_inv n r :
  valid_range n r = true →
  ∃ s e, r !! "start" = Some s ∧ r !! "end" = Some e ∧
         r !! "total" = Some (e - s + 1) ∧ 0 ≤ s ∧ s ≤ e ∧ e < Z.of_nat n.
Proof.
  unfold valid_range.
  destruct (r !! "start") as [s|]; [|done].
  destruct (r !! "end") as [e|]; [|done].
  destruct (r !! "total") as [t|]; [|done].
  intros H. apply bool_decide_eq_true in H as (? & ? & ? & ->).
  exists s, e. done.
Qed.

Lemma slice_bound_in (n : nat) (i : Z) :
  0 ≤ i ≤ Z.of_nat n → slice_bound (Z.of_nat n) i = Z.to_nat i.
Proof.
  intros H. unfold slice_bound.
  destruct (Z.ltb_spec i 0); [lia|]. f_equal. lia.
Qed.

Lemma mask_range_valid (v : str) (r : range) :
  valid_range (length v) r = true →
  ∃ v', mask_range r v = Done v' ∧ length v' = length v ∧
        ∀ i c, v !! i = Some c → v' !! i = Some (if covers r i then GAP else c).
Proof.
  intros H. apply valid_range_inv in H as (s & e & Hs & He & Ht & H0 & Hse & Hen).
  unfold mask_range, range_get, covers. rewrite Hs, He, Ht. simpl.
  eexists. split; [reflexivity|].
  unfold slice_to, slice_from, gaps.
  rewrite !slice_bound_in by lia.
  split.
  - rewrite !length_app, length_take, length_replicate, length_drop. lia.
  - intros i c Hi. pose proof (lookup_lt_Some _ _ _ Hi) as Hlt.
    destruct (decide (Z.of_nat i < s)) as [Hlo|Hlo].
    + rewrite bool_decide_eq_false_2 by lia.
      rewrite lookup_app_l by (rewrite length_take; lia).
      rewrite lookup_take_lt by lia. done.
    + rewrite lookup_app_r by (rewrite length_take; lia).
      rewrite length_take.
      destruct (decide (Z.of_nat i ≤ e)) as [Hhi|Hhi].
      * rewrite bool_decide_eq_true_2 by lia.
        rewrite lookup_app_l by (rewrite length_replicate; lia).
        apply lookup_replicate_2. lia.
      * rewrite bool_decide_eq_false_2 by lia.
        rewrite lookup_app_r by (rewrite length_replicate; lia).
        rewrite length_replicate, lookup_drop. rewrite <- Hi. f_equal. lia.
Qed.

Lemma mask_all_valid (rs : list range) (v : str) :
  Forall (λ r, valid_range (length v) r = true) rs →
  ∃ v', mask_all rs v = Done v' ∧ length v' = length v ∧
        ∀ i c, v !! i = Some c → v' !! i = Some (if covered rs i then GAP else c).
Proof.
  revert v. induction rs as [|r rs IH]; intros v Hall.
  - exists v. done.
  - apply Forall_cons in Hall as [Hr Hall].
    destruct (mask_range_valid v r Hr) as (v1 & E1 & L1 & C1).
    destruct (IH v1) as (v2 & E2 & L2 & C2); [by rewrite L1|].
    exists v2. simpl. rewrite E1. simpl. split; [done|]. split; [congruence|].
    intros i c Hi. rewrite (C2 i _ (C1 i c Hi)).
    unfold covered. simpl. destruct (covers r i); simpl; [|done].
    by destruct (existsb _ rs).
Qed.

Lemma mask_all_idem (rs : list range) (v v' : str) :
  Forall (λ r, valid_range (length v) r = true) rs →
  mask_all rs v = Done v' → mask_all rs v' = Done v'.
Proof.
  intros Hall E.
  destruct (mask_all_valid rs v Hall) as (w & Ew & Lw & Cw).
  rewrite E in Ew. injection Ew as <-.
  destruct (mask_all_valid rs v') as (w & Ew & Lw' & Cw'); [by rewrite Lw|].
  rewrite Ew. f_equal. apply list_eq. intros i.
  destruct (v' !! i) as [c|] eqn:Hi.
  - rewrite (Cw' i c Hi).
    assert (is_Some (v !! i)) as [c0 Hc0].
    { apply lookup_lt_is_Some. rewrite <- Lw. by eapply lookup_lt_Some. }
    rewrite (Cw i c0 Hc0) in Hi. destruct (covered rs i); congruence.
  - apply lookup_ge_None. rewrite Lw'. by apply lookup_ge_None.
Qed.

(** ** Masking the dictionary *)

Lemma in_bounds_lookup rs (d : seqdict) i k v :
  in_bounds rs d = true → d !! i = Some (k, v) →
  Forall (λ r, valid_range (length v) r = true) rs.
Proof.
  unfold in_bounds. intros H Hi.
  rewrite forallb_forall in H.
  specialize (H (k, v)). simpl in H.
  apply Forall_forall. intros r Hr.
  assert (forallb (valid_range (length v)) rs = true) as Hv.
  { apply H. apply list_elem_of_In. by eapply list_elem_of_lookup_2. }
  rewrite forallb_forall in Hv. apply Hv. by apply list_elem_of_In.
Qed.

Lemma ranges_loop_spec rs (d : seqdict) i key v v' :
  NoDup (dict_keys d) → d !! i = Some (key, v) → mask_all rs v = Done v' →
  ranges_loop rs key v d = (Done (), <[i := (key, v')]> d).
Proof.
  revert d v. induction rs as [|r rs IH]; intros d v Hnd Hi E; simpl in *.
  - injection E as <-. by rewrite list_insert_id.
  - destruct (mask_range r v) as [v1|] eqn:E1; simpl in E; [|done].
    rewrite dict_get_set.
    rewrite (dict_set_lookup d i key v v1 Hnd Hi).
    pose proof (lookup_lt_Some _ _ _ Hi) as Hlt.
    rewrite (IH (<[i := (key, v1)]> d) v1).
    + by rewrite list_insert_insert_eq.
    + by rewrite (dict_keys_insert d i key v v1 Hi).
    + by apply list_lookup_insert_eq.
    + done.
Qed.

Lemma complete_mask_all rs : ∀ v : str,
  Forall (λ r, complete r = true) rs → ∃ v', mask_all rs v = Done v'.
Proof.
  induction rs as [|r rs IH]; intros v Hall; simpl; [by exists v|].
  apply Forall_cons in Hall as [Hr Hall]. unfold complete in Hr.
  unfold mask_range, range_get.
  destruct (r !! "start"); [|done]. destruct (r !! "end"); [|done].
  destruct (r !! "total"); [|done]. simpl. by apply IH.
Qed.

Lemma valid_range_complete n r : valid_range n r = true → complete r = true.
Proof.
  intros H. apply valid_range_inv in H as (s & e & Hs & He & Ht & _).
  unfold complete. by rewrite Hs, He, Ht.
Qed.

Lemma items_loop_spec rs n : ∀ i (d : seqdict),
  NoDup (dict_keys d) → (i + n = length d)%nat →
  Forall (λ r, complete r = true) rs →
  items_loop n i rs d =
  (Done (), take i d ++ (prod_map id (masked rs) <$> drop i d)).
Proof.
  induction n as [|n IH]; intros i d Hnd Hlen Hc; simpl.
  - rewrite take_ge, drop_ge by lia. by rewrite app_nil_r.
  - destruct (lookup_lt_is_Some_2 d i) as [[key v] Hi]; [lia|].
    rewrite Hi.
    destruct (complete_mask_all rs v Hc) as (v' & E).
    rewrite (ranges_loop_spec rs d i key v v' Hnd Hi E).
    rewrite IH.
    + f_equal. rewrite (drop_S d (key, v) i Hi). simpl.
      unfold masked at 2. rewrite E.
      rewrite take_insert_lt by lia.
      rewrite drop_insert_lt by lia.
      rewrite (take_S_r d i (key, v) Hi).
      rewrite insert_app_r_alt by (rewrite length_take; lia).
      rewrite length_take, Nat.min_l by lia.
      rewrite Nat.sub_diag. simpl. by rewrite <- app_assoc.
    + by rewrite (dict_keys_insert d i key v v' Hi).
    + rewrite length_insert. lia.
    + done.
Qed.

Lemma process_aligned_seq_spec rs (d : seqdict) :
  NoDup (dict_keys d) → Forall (λ r, complete r = true) rs →
  process_aligned_seq rs d = (Done (), prod_map id (masked rs) <$> d).
Proof.
  intros Hnd Hc. unfold process_aligned_seq.
  by rewrite (items_loop_spec rs (length d) 0 d Hnd eq_refl Hc).
Qed.

Lemma ranges_loop_keys rs key : ∀ v (d : seqdict),
  key ∈ dict_keys d → dict_keys (ranges_loop rs key v d).2 = dict_keys d.
Proof.
  induction rs as [|r rs IH]; intros v d Hk; simpl; [done|].
  destruct (mask_range r v) as [v1|]; [|done].
  rewrite dict_get_set. rewrite IH.
  - by apply dict_keys_set_elem.
  - by rewrite dict_keys_set_elem.
Qed.

Lemma items_loop_keys rs n : ∀ i (d : seqdict),
  dict_keys (items_loop n i rs d).2 = dict_keys d.
Proof.
  induction n as [|n IH]; intros i d; simpl; [done|].
  destruct (d !! i) as [[key v]|] eqn:Hi; [|done].
  pose proof (ranges_loop_keys rs key v d (dict_lookup_key d i key v Hi)) as Hk.
  destruct (ranges_loop rs key v d) as [[[]|e] d']; simpl in *.
  - by rewrite IH.
  - done.
Qed.

Lemma masked_idem rs (v : str) :
  Forall (λ r, valid_range (length v) r = true) rs →
  masked rs (masked rs v) = masked rs v.
Proof.
  intros H. destruct (mask_all_valid rs v H) as (v' & E & L & _).
  unfold masked. rewrite E. by rewrite (mask_all_idem rs v v' H E).
Qed.

(** C3.  For every sequence stored in a dictionary (keys pairwise
    distinct) and every list of closed ranges that lie inside that
    sequence, [process_aligned_seq] returns normally and leaves under the
    same key, at the same place, a sequence of the same length in which
    each column inside some range is the gap character and each other
    column is unchanged.  (That the ranges are disjoint and ascending is
    not needed.)  In particular the ranges [{start:2,end:3,total:2}],
    [{start:6,end:7,total:2}] turn ["TTTTTTTT"] into ["TT--TT--"]. *)
Theorem process_aligned_seq_masks :
  (∀ (flank_ranges : list range) (d : seqdict) i key value,
     NoDup (dict_keys d) → d !! i = Some (key, value) →
     forallb (valid_range (length value)) flank_ranges = true →
     ∃ d' value',
       process_aligned_seq flank_ranges d = (Done (), d') ∧
       length d' = length d ∧
       d' !! i = Some (key, value') ∧
       length value' = length value ∧
       ∀ col c, value !! col = Some c →
         value' !! col = Some (if covered flank_ranges col then GAP else c))
  ∧ (∀ key, process_aligned_seq example_ranges [(key, text "TTTTTTTT")] =
            (Done (), [(key, text "TT--TT--")])).
Proof.
  split.
  - intros rs d i key value Hnd Hi Hb.
    assert (Forall (λ r, valid_range (length value) r = true) rs) as Hv.
    { rewrite forallb_forall in Hb. apply Forall_forall. intros r Hr.
      apply Hb. by apply list_elem_of_In. }
    assert (Forall (λ r, complete r = true) rs) as Hc.
    { eapply Forall_impl; [exact Hv|]. intros r. apply valid_range_complete. }
    destruct (mask_all_valid rs value Hv) as (v' & E & L & C).
    exists (prod_map id (masked rs) <$> d), v'.
    split; [by apply process_aligned_seq_spec|].
    split; [by rewrite length_fmap|].
    rewrite list_lookup_fmap, Hi. simpl.
    unfold masked. rewrite E. done.
  - intros key. rewrite process_aligned_seq_spec.
    + reflexivity.
    + apply NoDup_singleton.
    + repeat constructor.
Qed.

Lemma process_aligned_seq_masks_witness :
  NoDup (dict_keys example_store) ∧
  example_store !! 1%nat = Some (text ">s2", text "ACGTACGT") ∧
  forallb (valid_range (length (text "ACGTACGT"))) example_ranges = true ∧
  ∃ d' value',
    process_aligned_seq example_ranges example_store = (Done (), d') ∧
    length d' = length example_store ∧
    d' !! 1%nat = Some (text ">s2", value') ∧
    length value' = length (text "ACGTACGT") ∧
    ∀ col c, text "ACGTACGT" !! col = Some c →
      value' !! col = Some (if covered example_ranges col then GAP else c).
Proof.
  assert (NoDup (dict_keys example_store)) as Hnd.
  { apply (bool_decide_unpack _). vm_compute. exact I. }
  split; [exact Hnd|]. split; [reflexivity|]. split; [reflexivity|].
  apply (proj1 process_aligned_seq_masks example_ranges example_store 1%nat
           (text ">s2") (text "ACGTACGT") Hnd); reflexivity.
Defined.

(** C4.  Masking is idempotent: for a dictionary and closed ranges that
    lie inside every sequence, a second run of [process_aligned_seq] with
    the same ranges leaves the dictionary that the first run produced. *)
Theorem process_aligned_seq_idempotent (flank_ranges : list range) (d : seqdict) :
  NoDup (dict_keys d) → in_bounds flank_ranges d = true →
  ∃ d1, process_aligned_seq flank_ranges d = (Done (), d1) ∧
        process_aligned_seq flank_ranges d1 = (Done (), d1).
Proof.
  intros Hnd Hb. exists (prod_map id (masked flank_ranges) <$> d).
  destruct d as [|[k0 v0] d0] eqn:Ed; [by split|]. rewrite <- Ed in *.
  assert (∀ kv, kv ∈ d →
            Forall (λ r, valid_range (length kv.2) r = true) flank_ranges) as Hv.
  { intros [k v] Hin. apply list_elem_of_lookup in Hin as [i Hi].
    by eapply in_bounds_lookup. }
  assert (Forall (λ r, complete r = true) flank_ranges) as Hc.
  { eapply Forall_impl; [apply (Hv (k0, v0)); rewrite Ed; apply list_elem_of_here|].
    intros r. apply valid_range_complete. }
  split; [by apply process_aligned_seq_spec|].
  rewrite process_aligned_seq_spec.
  - f_equal. rewrite <- list_fmap_compose. apply list_fmap_ext.
    intros i [k v] Hi. simpl. f_equal. apply masked_idem.
    apply (Hv (k, v)). by eapply list_elem_of_lookup_2.
  - unfold dict_keys. rewrite <- list_fmap_compose.
    erewrite list_fmap_ext; [exact Hnd|]. by intros i [k v] _.
  - done.
Qed.

Lemma process_aligned_seq_idempotent_witness :
  NoDup (dict_keys example_store) ∧ in_bounds example_ranges example_store = true ∧
  ∃ d1, process_aligned_seq example_ranges example_store = (Done (), d1) ∧
        process_aligned_seq example_ranges d1 = (Done (), d1).
Proof.
  assert (NoDup (dict_keys example_store)) as Hnd.
  { apply (bool_decide_unpack _). vm_compute. exact I. }
  split; [exact Hnd|]. split; [reflexivity|].
  apply (process_aligned_seq_idempotent example_ranges example_store Hnd).
  reflexivity.
Defined.

(** C5.  [process_aligned_seq] changes sequences only: for every
    dictionary and every list of ranges, whether the method returns or
    raises, the keys of the dictionary it leaves are the keys it found,
    in the same order, and so the number of records is the same. *)
Theorem process_aligned_seq_keys (flank_ranges : list range) (d : seqdict) :
  dict_keys (process_aligned_seq flank_ranges d).2 = dict_keys d ∧
  length (process_aligned_seq flank_ranges d).2 = length d.
Proof.
  assert (dict_keys (process_aligned_seq flank_ranges d).2 = dict_keys d) as H.
  { apply items_loop_keys. }
  split; [done|].
  apply (f_equal length) in H. unfold dict_keys in H.
  by rewrite !length_fmap in H.
Qed.

(** ** The range extractor *)

Lemma list_last_snoc (l : list range) r : list_last (l ++ [r]) = Done r.
Proof. unfold list_last. by rewrite last_snoc. Qed.

Lemma set_last_snoc (l : list range) r x : set_last (l ++ [r]) x = l ++ [x].
Proof.
  unfold set_last. rewrite length_app. simpl.
  replace (pred (length l + 1)) with (length l + 0)%nat by lia.
  by rewrite insert_app_r.
Qed.

Lemma open_range_lookups i st :
  open_range i st !! "id" = Some i ∧ open_range i st !! "start" = Some st ∧
  open_range i st !! "end" = None ∧ open_range i st !! "total" = None.
Proof. unfold open_range. by simplify_map_eq. Qed.

Lemma scan_inv_init : scan_inv scan_init.
Proof. split; simpl; [lia|constructor]. Qed.

Lemma scan_char_gap s :
  scan_inv s →
  ∃ s', scan_char GAP s = Done s' ∧ scan_inv s' ∧
        prev_char s' = true ∧ pos s' = pos s + 1 ∧
        flank_range_list s' =
          if prev_char s then flank_range_list s
          else flank_range_list s ++ [open_range (range_num s) (pos s)].
Proof.
  intros [Hpos Hinv]. unfold scan_char. rewrite decide_True by done.
  destruct (prev_char s) eqn:Hp.
  - eexists. split; [reflexivity|]. unfold scan_inv. simpl.
    split_and!; try done; try lia.
    destruct Hinv as (l & i & st & El & Hl & Hst).
    exists l, i, st. split_and!; try done; lia.
  - eexists. split; [reflexivity|]. unfold scan_inv. simpl.
    split_and!; try done; try lia.
    exists (flank_range_list s), (range_num s), (pos s).
    split_and!; try done; lia.
Qed.

Lemma scan_char_other c s :
  c ≠ GAP → scan_inv s →
  ∃ s', scan_char c s = Done s' ∧ scan_inv s' ∧
        prev_char s' = false ∧ pos s' = pos s + 1.
Proof.
  intros Hc [Hpos Hinv]. unfold scan_char. rewrite decide_False by done.
  destruct (prev_char s) eqn:Hp.
  - destruct Hinv as (l & i & st & El & Hl & Hst).
    rewrite El, list_last_snoc. simpl.
    destruct (open_range_lookups i st) as (_ & Hs & _ & _).
    unfold range_get. rewrite lookup_insert_eq. simpl.
    rewrite lookup_insert_ne, Hs by done. simpl.
    eexists. split; [reflexivity|]. unfold scan_inv. simpl.
    split_and!; try done; try lia.
    rewrite set_last_snoc. apply Forall_app. split; [done|].
    apply Forall_singleton. exists st, (pos s - 1).
    split_and!; try lia.
    + by rewrite !lookup_insert_ne.
    + by rewrite lookup_insert_ne, lookup_insert_eq.
    + by rewrite lookup_insert_eq.
  - eexists. split; [reflexivity|]. unfold scan_inv. simpl.
    split_and!; try done; lia.
Qed.

Lemma scan_seq_inv seq : ∀ s,
  scan_inv s →
  ∃ s', scan_seq seq s = Done s' ∧ scan_inv s' ∧
        pos s' = pos s + Z.of_nat (length seq) ∧
        prev_char s' =
          match last seq with
          | Some c => bool_decide (c = GAP)
          | None => prev_char s
          end.
Proof.
  induction seq as [|c seq IH]; intros s Hinv.
  - exists s. simpl. split_and!; try done; lia.
  - assert (∃ s1, scan_char c s = Done s1 ∧ scan_inv s1 ∧
                  prev_char s1 = bool_decide (c = GAP) ∧ pos s1 = pos s + 1)
      as (s1 & E1 & I1 & P1 & Q1).
    { destruct (decide (c = GAP)) as [->|Hc].
      - destruct (scan_char_gap s Hinv) as (s1 & ? & ? & ? & ? & _).
        exists s1. by rewrite bool_decide_eq_true_2.
      - destruct (scan_char_other c s Hc Hinv) as (s1 & ? & ? & ? & ?).
        exists s1. by rewrite bool_decide_eq_false_2. }
    destruct (IH s1 I1) as (s' & E' & I' & Q' & P').
    exists s'. simpl scan_seq. rewrite E1. simpl. split_and!; try done.
    + rewrite Q', Q1. lia.
    + rewrite P'. destruct seq as [|c' seq]; [done|].
      rewrite last_cons_cons.
      destruct (last (c' :: seq)) eqn:El; [done|].
      by apply last_None in El.
Qed.




Lemma process_ref_genome_single k seq :
  process_ref_genome [(k, seq)] =
  s ← scan_seq seq scan_init; Done (flank_range_list s).
Proof. reflexivity. Qed.

(** C1.  On the reference ["AC--GT--"] [process_ref_genome] closes the
    first run only: the second run reaches the end of the sequence and
    its range keeps [id] and [start] alone, so the list is not the two
    closed ranges [{start:2,end:3,total:2}], [{start:6,end:7,total:2}]. *)
Theorem process_ref_genome_AC_GT (k : str) :
  process_ref_genome [(k, text "AC--GT--")] =
    Done [ {[ "id" := 1; "start" := 2; "end" := 3; "total" := 2 ]};
           open_range 2 6 ] ∧
  process_ref_genome [(k, text "AC--GT--")] ≠ Done example_ranges.
Proof.
  assert (process_ref_genome [(k, text "AC--GT--")] =
          Done [ {[ "id" := 1; "start" := 2; "end" := 3; "total" := 2 ]};
                 open_range 2 6 ]) as E.
  { rewrite process_ref_genome_single. vm_compute. reflexivity. }
  split; [exact E|]. rewrite E. intros H.
  assert (H' := f_equal
    (λ x, match x with Done [_; r2] => r2 !! "end" | _ => None end) H).
  vm_compute in H'. discriminate.
Qed.




(** ** The script *)

Lemma read_file_reference f (d : seqdict) :
  read_records f [] = (Done (), d) →
  read_file f "reference_genome" [] Sequence_init =
  match process_ref_genome d with
  | Done l => (Done (), {| self_seqdict := d; self_flank_range_list := Some l |})
  | Raised e => (Raised e, {| self_seqdict := d; self_flank_range_list := None |})
  end.
Proof.
  intros H. unfold read_file. simpl. rewrite H. simpl.
  by destruct (process_ref_genome d).
Qed.

Lemma read_file_aligned f rs (d : seqdict) :
  read_records f [] = (Done (), d) →
  read_file f "aligned_sequences" rs Sequence_init =
  ((process_aligned_seq rs d).1,
   {| self_seqdict := (process_aligned_seq rs d).2;
      self_flank_range_list := None |}).
Proof.
  intros H. unfold read_file. simpl. rewrite H. simpl.
  by destruct (process_aligned_seq rs d).
Qed.

(** C6.  With no record in the reference dictionary [process_ref_genome]
    raises [ReferenceNotFound], with more than one it raises
    [AmbiguousReference]; a run of the script whose reference file gives
    such a dictionary ends with that exception, with the alignment object
    as it was created (its file not read, nothing masked) and without an
    output file. *)
Theorem reference_count_errors :
  process_ref_genome [] = Raised ReferenceNotFound ∧
  (∀ d : seqdict, (1 < length d)%nat →
     process_ref_genome d = Raised AmbiguousReference) ∧
  (∀ (msa_text ref_text : str) (d : seqdict),
     read_records (open_file ref_text) [] = (Done (), d) →
     length d ≠ 1%nat →
     outcome (main msa_text ref_text) =
       Raised (if decide (length d = 0%nat) then ReferenceNotFound
               else AmbiguousReference) ∧
     MSA (main msa_text ref_text) = Sequence_init ∧
     output (main msa_text ref_text) = None).
Proof.
  assert (∀ d : seqdict, (1 < length d)%nat →
            process_ref_genome d = Raised AmbiguousReference) as Hmany.
  { intros d Hd. unfold process_ref_genome, dict_keys.
    rewrite length_fmap. by rewrite decide_True. }
  split; [reflexivity|]. split; [exact Hmany|].
  intros msa_text ref_text d Hread Hlen. unfold main.
  rewrite (read_file_reference _ d Hread).
  destruct (decide (length d = 0%nat)) as [H0|H0].
  - destruct d; [|done]. done.
  - rewrite Hmany by lia. done.
Qed.

Lemma reference_count_errors_witness :
  read_records (open_file (text ">a
AC
>b
GT
")) [] = (Done (), [(text ">a", text "AC"); (text ">b", text "GT")]) ∧
  length [(text ">a", text "AC"); (text ">b", text "GT")] ≠ 1%nat ∧
  outcome (main (text ">a
AC
>b
GT
") (text ">a
AC
>b
GT
")) = Raised AmbiguousReference.
Proof.
  assert (read_records (open_file (text ">a
AC
>b
GT
")) [] = (Done (), [(text ">a", text "AC"); (text ">b", text "GT")])) as H
    by (vm_compute; reflexivity).
  assert (length [(text ">a", text "AC"); (text ">b", text "GT")] ≠ 1%nat) as Hl
    by (simpl; lia).
  split; [exact H|]. split; [exact Hl|].
  exact (proj1 (proj2 (proj2 reference_count_errors) _ _ _ H Hl)).
Defined.

(** ** A reference that ends in a gap run *)

Lemma closed_mask_range r (v : str) :
  closed r → ∃ v', mask_range r v = Done v'.
Proof.
  intros (s & e & Hs & He & Ht & _).
  unfold mask_range, range_get. rewrite Hs, He, Ht. simpl. eauto.
Qed.

Lemma ranges_loop_open_last (l : list range) r key (rest : seqdict) :
  Forall closed l → is_Some (r !! "start") → r !! "end" = None →
  ∀ v, ∃ v', ranges_loop (l ++ [r]) key v ((key, v) :: rest) =
             (Raised (KeyError "end"), (key, v') :: rest).
Proof.
  intros Hl [st Hs] He. induction Hl as [|r0 l H0 Hl IH]; intros v; simpl.
  - exists v. unfold mask_range, range_get. by rewrite Hs, He.
  - destruct (closed_mask_range r0 v H0) as (v1 & ->).
    rewrite decide_True by done. simpl. rewrite decide_True by done.
    destruct (IH v1) as (v' & ->). by exists v'.
Qed.

(** C9, as stated, fails when the alignment file gives no record (here it
    starts with a blank line): no range is looked up, the run ends
    normally and an empty output file is written. *)
Lemma empty_alignment_no_abort :
  ¬ aborts_on_trailing_gap (text "
>ref
ACGT--
") (text ">ref
ACGT--
").
Proof.
  intros H.
  destruct (H (text ">ref") (text "ACGT--")) as [H1 _].
  - vm_compute. reflexivity.
  - vm_compute. reflexivity.
  - vm_compute in H1. discriminate.
Qed.

(** C9, amended.  When the one sequence of the reference dictionary ends
    in a gap character, the last entry of the list of
    [process_ref_genome] has the keys [id] and [start] only; when in
    addition the alignment file loads with at least one record,
    [process_aligned_seq] raises the missing-key error for ['end'] while
    it handles the first record of the alignment dictionary (the records
    after it are untouched), and the run of the script ends with that
    error and without an output file. *)
Theorem trailing_gap_aborts (msa_text ref_text k seq key value : str)
    (rest : seqdict) :
  read_records (open_file ref_text) [] = (Done (), [(k, seq)]) →
  last seq = Some GAP →
  read_records (open_file msa_text) [] = (Done (), (key, value) :: rest) →
  ∃ l r value',
    process_ref_genome [(k, seq)] = Done (l ++ [r]) ∧
    dom r = {[ "id"; "start" ]} ∧
    process_aligned_seq (l ++ [r]) ((key, value) :: rest) =
      (Raised (KeyError "end"), (key, value') :: rest) ∧
    outcome (main msa_text ref_text) = Raised (KeyError "end") ∧
    self_seqdict (MSA (main msa_text ref_text)) = (key, value') :: rest ∧
    output (main msa_text ref_text) = None.
Proof.
  intros Href Hlast Hmsa.
  destruct (scan_seq_inv seq scan_init scan_inv_init) as (s' & E & [_ I] & _ & P).
  rewrite Hlast, bool_decide_eq_true_2 in P by done. rewrite P in I.
  destruct I as (l & i & st & L & Hl & _).
  destruct (open_range_lookups i st) as (Hi & Hs & He & Ht).
  destruct (ranges_loop_open_last l (open_range i st) key rest Hl
              (mk_is_Some _ _ Hs) He value) as (value' & Hloop).
  assert (process_ref_genome [(k, seq)] = Done (l ++ [open_range i st])) as Hp.
  { rewrite process_ref_genome_single, E. simpl. by rewrite L. }
  assert (process_aligned_seq (l ++ [open_range i st]) ((key, value) :: rest) =
          (Raised (KeyError "end"), (key, value') :: rest)) as Ha.
  { unfold process_aligned_seq. simpl. by rewrite Hloop. }
  exists l, (open_range i st), value'.
  split; [exact Hp|]. split.
  { unfold open_range. rewrite dom_insert_L, dom_singleton_L. set_solver. }
  split; [exact Ha|].
  unfold main. rewrite (read_file_reference _ _ Href), Hp. simpl.
  rewrite (read_file_aligned _ _ _ Hmsa), Ha. done.
Qed.

Lemma trailing_gap_aborts_witness :
  ∃ l r value',
    process_ref_genome [(text ">ref", text "ACGT--")] = Done (l ++ [r]) ∧
    dom r = {[ "id"; "start" ]} ∧
    process_aligned_seq (l ++ [r])
      [(text ">ref", text "ACGT--"); (text ">s", text "TTTTTT")] =
      (Raised (KeyError "end"),
       [(text ">ref", value'); (text ">s", text "TTTTTT")]) ∧
    outcome (main (text ">ref
ACGT--
>s
TTTTTT
") (text ">ref
ACGT--
")) = Raised (KeyError "end") ∧
    self_seqdict (MSA (main (text ">ref
ACGT--
>s
TTTTTT
") (text ">ref
ACGT--
"))) = [(text ">ref", value'); (text ">s", text "TTTTTT")] ∧
    output (main (text ">ref
ACGT--
>s
TTTTTT
") (text ">ref
ACGT--
")) = None.
Proof.
  apply (trailing_gap_aborts _ _ (text ">ref") (text "ACGT--")
           (text ">ref") (text "ACGT--") [(text ">s", text "TTTTTT")]).
  - vm_compute. reflexivity.
  - vm_compute. reflexivity.
  - vm_compute. reflexivity.
Defined.

(** ** The loader *)

Lemma read_records_next_line (f : file) (d : seqdict) :
  read_records f d =
  match next_line f with
  | None => (Done (), d)
  | Some (line, f') =>
      match read_line line d with
      | (Done _, d') => read_records f' d'
      | (Raised e, d') => (Raised e, d')
      end
  end.
Proof.
  destruct f as [|raw f]; [reflexivity|].
  unfold next_line. simpl. by destruct (strip raw).
Qed.

Lemma dict_set_fresh (d : seqdict) k v :
  k ∉ dict_keys d → dict_set d k v = d ++ [(k, v)].
Proof.
  unfold dict_keys. induction d as [|[k' v'] d IH]; simpl; intros H; [done|].
  apply not_elem_of_cons in H as [Hne H].
  rewrite decide_False by done. by rewrite IH.
Qed.

Lemma dict_get_snoc (d : seqdict) k v :
  k ∉ dict_keys d → dict_get (d ++ [(k, v)]) k = Some v.
Proof.
  unfold dict_keys. induction d as [|[k' v'] d IH]; simpl; intros H.
  - by rewrite decide_True.
  - apply not_elem_of_cons in H as [Hne H].
    rewrite decide_False by done. by apply IH.
Qed.

Lemma dict_set_snoc (d : seqdict) k v w :
  k ∉ dict_keys d → dict_set (d ++ [(k, v)]) k w = d ++ [(k, w)].
Proof.
  unfold dict_keys. induction d as [|[k' v'] d IH]; simpl; intros H.
  - by rewrite decide_True.
  - apply not_elem_of_cons in H as [Hne H].
    rewrite decide_False by done. by rewrite IH.
Qed.

Lemma append_last_snoc (d : seqdict) k v line :
  append_last line (d ++ [(k, v)]) = Some (d ++ [(k, v ++ line)]).
Proof. unfold append_last. by rewrite reverse_snoc, reverse_involutive. Qed.

Lemma dict_keys_snoc (d : seqdict) k v :
  dict_keys (d ++ [(k, v)]) = dict_keys d ++ [k].
Proof. unfold dict_keys. by rewrite fmap_app. Qed.

Lemma last_key_snoc (d : seqdict) k v : last_key (d ++ [(k, v)]) = Done k.
Proof. unfold last_key. by rewrite dict_keys_snoc, last_snoc. Qed.

(** A header line whose key is new starts a record at the end. *)
Lemma read_line_header (d : seqdict) line :
  startswith_marker line = true → line ∉ dict_keys d →
  read_line line d = (Done (), d ++ [(line, [])]).
Proof.
  intros Hm Hk. unfold read_line. rewrite Hm. by rewrite dict_set_fresh.
Qed.

(** Any other line goes to the record that is last in the dictionary. *)
Lemma read_line_sequence (d : seqdict) k v line :
  startswith_marker line = false → k ∉ dict_keys d →
  read_line line (d ++ [(k, v)]) = (Done (), d ++ [(k, v ++ line)]).
Proof.
  intros Hm Hk. unfold read_line. rewrite Hm, last_key_snoc.
  by rewrite dict_get_snoc, dict_set_snoc.
Qed.

Lemma read_records_agrees (f : file) : ∀ d d' : seqdict,
  NoDup (dict_keys d ++ headers (strip <$> f)) →
  spec_load (strip <$> f) d = Some d' →
  read_records f d = (Done (), d').
Proof.
  induction f as [|raw f IH]; intros d d' Hnd Hspec.
  - simpl in *. congruence.
  - rewrite fmap_cons in *. simpl in Hspec. simpl.
    unfold headers in Hnd. simpl in Hnd.
    destruct (strip raw) as [|c line] eqn:Hraw.
    + rewrite decide_True in Hspec by done. congruence.
    + rewrite decide_False in Hspec by done.
      rewrite decide_False in Hnd by done.
      rewrite filter_cons in Hnd.
      destruct (startswith_marker (c :: line)) eqn:Hm.
      * rewrite decide_True in Hnd by done.
        assert (c :: line ∉ dict_keys d) as Hfresh.
        { apply NoDup_app in Hnd as (_ & Hd & _). intros Hin.
          apply (Hd _ Hin). apply list_elem_of_here. }
        rewrite read_line_header by done.
        apply IH; [|done].
        rewrite dict_keys_snoc, <- app_assoc. exact Hnd.
      * rewrite decide_False in Hnd by done.
        destruct d as [|[k v] d0 _] using rev_ind; [done|].
        rewrite append_last_snoc in Hspec. simpl in Hspec.
        assert (k ∉ dict_keys d0) as Hfresh.
        { apply NoDup_app in Hnd as (Hnd & _).
          rewrite dict_keys_snoc in Hnd.
          apply NoDup_app in Hnd as (_ & Hd & _). intros Hin.
          apply (Hd _ Hin). apply list_elem_of_here. }
        rewrite read_line_sequence by done.
        apply IH; [|done].
        by rewrite dict_keys_snoc in *.
Qed.

Lemma read_records_stops (f1 f2 : file) raw : ∀ d : seqdict,
  strip raw = [] → read_records (f1 ++ raw :: f2) d = read_records f1 d.
Proof.
  intros d Hraw. revert d. induction f1 as [|r1 f1 IH]; intros d; simpl.
  - by rewrite Hraw.
  - destruct (strip r1); [done|].
    destruct (read_line _ d) as [[[]|e] d1]; [apply IH|done].
Qed.

(** C7, as stated, fails when a header line comes twice: the sequence
    line after the second [">a"] goes to the record of [">b"], which is
    last in the dictionary, and the sequence of [">a"] is emptied. *)
Lemma duplicate_header_not_as_specified :
  ¬ loads_as_specified (open_file (text ">a
AA
>b
CC
>a
GG
")).
Proof.
  intros (d & Hspec & Hread).
  vm_compute in Hspec. vm_compute in Hread. congruence.
Qed.

Example duplicate_header_read :
  read_records (open_file (text ">a
AA
>b
CC
>a
GG
")) [] = (Done (), [(text ">a", []); (text ">b", text "CCGG")]).
Proof. vm_compute. reflexivity. Qed.

(** C7, amended.  Lines are taken without their terminator and
    surrounding whitespace.  When the header lines before the first blank
    line are pairwise distinct and no sequence line comes before the
    first header, [read_records] builds the dictionary that the words of
    the specification describe: a header line starts a new record whose
    key is the line and whose sequence is empty, every other non-blank
    line is appended to the sequence of the most recently started record.
    On every file the first blank line ends the scan: no line after it
    contributes to any record. *)
Theorem read_records_as_specified :
  (∀ (f : file) (d : seqdict),
     spec_load (strip <$> f) [] = Some d → NoDup (headers (strip <$> f)) →
     read_records f [] = (Done (), d)) ∧
  (∀ (f1 f2 : file) (raw : str) (d : seqdict),
     strip raw = [] → read_records (f1 ++ raw :: f2) d = read_records f1 d).
Proof.
  split.
  - intros f d Hspec Hnd. by apply read_records_agrees.
  - intros f1 f2 raw d Hraw. by apply read_records_stops.
Qed.

Lemma read_records_as_specified_witness :
  spec_load (strip <$> open_file (text ">a
AC
GT
>b
TT

>c
AA
")) [] = Some [(text ">a", text "ACGT"); (text ">b", text "TT")] ∧
  NoDup (headers (strip <$> open_file (text ">a
AC
GT
>b
TT

>c
AA
"))) ∧
  read_records (open_file (text ">a
AC
GT
>b
TT

>c
AA
")) [] = (Done (), [(text ">a", text "ACGT"); (text ">b", text "TT")]).
Proof.
  assert (spec_load (strip <$> open_file (text ">a
AC
GT
>b
TT

>c
AA
")) [] = Some [(text ">a", text "ACGT"); (text ">b", text "TT")]) as Hspec
    by (vm_compute; reflexivity).
  assert (NoDup (headers (strip <$> open_file (text ">a
AC
GT
>b
TT

>c
AA
")))) as Hnd by (apply (bool_decide_unpack _); vm_compute; exact I).
  split; [exact Hspec|]. split; [exact Hnd|].
  exact (proj1 read_records_as_specified _ _ Hspec Hnd).
Defined.

(** C10, as stated, fails when a blank line comes first: the scan ends
    there, the loader returns with an empty dictionary, and the line
    after it, the first non-blank line, is never read. *)
Lemma leading_blank_no_error :
  ¬ fails_without_header (open_file (text "
ACGT
")).
Proof.
  intros H. specialize (H (text "ACGT")).
  vm_compute in H. specialize (H eq_refl eq_refl). discriminate.
Qed.

(** C10, amended.  When the first line of the file is not blank and,
    stripped, does not start with the header marker, the loader raises
    the index error on taking the last key of the empty dictionary, and
    the dictionary stays empty: the line is attached to no record. *)
Theorem read_records_headerless (raw : str) (f : file) :
  strip raw ≠ [] → startswith_marker (strip raw) = false →
  read_records (raw :: f) [] = (Raised IndexError, []).
Proof.
  intros Hne Hm. simpl. destruct (strip raw) as [|c line]; [done|].
  unfold read_line. by rewrite Hm.
Qed.

Lemma read_records_headerless_witness :
  strip (text "ACGT" ++ [LF]) ≠ [] ∧
  startswith_marker (strip (text "ACGT" ++ [LF])) = false ∧
  read_records (open_file (text "ACGT
>a
TT
")) [] = (Raised IndexError, []).
Proof.
  assert (strip (text "ACGT" ++ [LF]) ≠ []) as Hne by (vm_compute; discriminate).
  assert (startswith_marker (strip (text "ACGT" ++ [LF])) = false) as Hm
    by (vm_compute; reflexivity).
  split; [exact Hne|]. split; [exact Hm|].
  exact (read_records_headerless (text "ACGT" ++ [LF]) _ Hne Hm).
Defined.

(** ** Writing and reading back *)

Lemma lstrip_snoc_space (s : str) c :
  isspace c = true →
  lstrip (s ++ [c]) = match lstrip s with [] => [] | t => t ++ [c] end.
Proof.
  intros Hc. induction s as [|a s IH]; simpl.
  - by rewrite Hc.
  - by destruct (isspace a).
Qed.

Lemma rstrip_snoc_space (s : str) c :
  isspace c = true → rstrip (s ++ [c]) = rstrip s.
Proof.
  intros Hc. unfold rstrip. rewrite rev_unit. simpl. by rewrite Hc.
Qed.

Lemma strip_snoc_space (s : str) c :
  isspace c = true → strip (s ++ [c]) = strip s.
Proof.
  intros Hc. unfold strip. rewrite lstrip_snoc_space by done.
  destruct (lstrip s) as [|a t]; [done|].
  by rewrite rstrip_snoc_space.
Qed.

Lemma no_break_nil : no_break [].
Proof. split; apply not_elem_of_nil. Qed.

Lemma no_break_cons c (s : str) :
  no_break (c :: s) ↔ c ≠ LF ∧ c ≠ CR ∧ no_break s.
Proof.
  unfold no_break. rewrite !not_elem_of_cons. intuition congruence.
Qed.

Lemma no_break_app (s1 s2 : str) :
  no_break (s1 ++ s2) ↔ no_break s1 ∧ no_break s2.
Proof. unfold no_break. rewrite !not_elem_of_app. tauto. Qed.

Lemma lines_from_line (l : str) : ∀ cur rest,
  no_break l →
  lines_from cur (l ++ LF :: rest) = (cur ++ l ++ [LF]) :: lines_from [] rest.
Proof.
  induction l as [|c l IH]; intros cur rest Hl; simpl.
  - reflexivity.
  - apply no_break_cons in Hl as (Hc1 & Hc2 & Hl).
    rewrite !decide_False by done. rewrite IH by done.
    by rewrite <- app_assoc.
Qed.

Lemma writable_record_inv k v :
  writable_record (k, v) = true →
  startswith_marker k = true ∧ strip k = k ∧ no_break k ∧
  v ≠ [] ∧ startswith_marker v = false ∧ strip v = v ∧ no_break v.
Proof.
  unfold writable_record, plain_line. simpl.
  rewrite !andb_true_iff, !bool_decide_eq_true, negb_true_iff. tauto.
Qed.

Lemma read_written (d : seqdict) : ∀ acc : seqdict,
  NoDup (dict_keys acc ++ dict_keys d) → writable d = true →
  read_records (open_file (save_output d)) acc = (Done (), acc ++ d).
Proof.
  unfold open_file.
  induction d as [|[k v] d IH]; intros acc Hnd Hw.
  - simpl. by rewrite app_nil_r.
  - simpl in Hw. apply andb_true_iff in Hw as [Hkv Hw].
    apply writable_record_inv in Hkv as (Hk1 & Hk2 & Hk3 & Hv1 & Hv2 & Hv3 & Hv4).
    assert (k ∉ dict_keys acc) as Hfresh.
    { apply NoDup_app in Hnd as (_ & Hd & _). intros Hin.
      apply (Hd _ Hin). apply list_elem_of_here. }
    replace (save_output ((k, v) :: d))
      with (k ++ LF :: (v ++ LF :: save_output d))
      by (simpl; rewrite <- app_assoc; simpl; by rewrite <- app_assoc).
    rewrite !lines_from_line by done. simpl.
    rewrite !strip_snoc_space, Hk2, Hv3 by done.
    destruct k as [|ck k]; [done|]. destruct v as [|cv v]; [done|].
    rewrite read_line_header by done.
    rewrite read_line_sequence by done. simpl app at 2.
    rewrite IH; [by rewrite <- app_assoc| |done].
    rewrite dict_keys_snoc, <- app_assoc. exact Hnd.
Qed.

(** C8, as stated, fails for a record with an empty sequence: its
    sequence line is written as a blank line, which ends the scan when
    the text is read back.  The loader itself builds such a dictionary
    from a header line that is followed by another header line. *)
Lemma empty_sequence_no_round_trip :
  ¬ round_trips [(text ">a", []); (text ">b", text "ACGT")].
Proof. unfold round_trips. vm_compute. discriminate. Qed.

Example empty_sequence_loaded :
  read_records (open_file (text ">a
>b
ACGT
")) [] = (Done (), [(text ">a", []); (text ">b", text "ACGT")]) ∧
  read_records
    (open_file (save_output [(text ">a", []); (text ">b", text "ACGT")])) [] =
    (Done (), [(text ">a", [])]).
Proof. split; vm_compute; reflexivity. Qed.

(** C8, amended.  For a dictionary in which every key is a header line,
    every sequence is non-empty and is no header line, and no key or
    sequence has surrounding whitespace, or a line feed or a carriage
    return inside, reading the text that [save_output] writes gives back
    the dictionary: the same keys in the same order with the same
    sequences. *)
Theorem save_output_round_trip (d : seqdict) :
  NoDup (dict_keys d) → writable d = true →
  read_records (open_file (save_output d)) [] = (Done (), d).
Proof. intros Hnd Hw. by apply (read_written d []). Qed.

Lemma save_output_round_trip_witness :
  NoDup (dict_keys example_store) ∧ writable example_store = true ∧
  read_records (open_file (save_output example_store)) [] =
    (Done (), example_store).
Proof.
  assert (NoDup (dict_keys example_store)) as Hnd.
  { apply (bool_decide_unpack _). vm_compute. exact I. }
  assert (writable example_store = true) as Hw by (vm_compute; reflexivity).
  split; [exact Hnd|]. split; [exact Hw|].
  exact (save_output_round_trip example_store Hnd Hw).
Defined.

(** * Further properties of the loader *)

Lemma dict_keys_set (d : seqdict) k v :
  dict_keys (dict_set d k v) =
  if decide (k ∈ dict_keys d) then dict_keys d else dict_keys d ++ [k].
Proof.
  destruct (decide (k ∈ dict_keys d)) as [Hin|Hin].
  - by apply dict_keys_set_elem.
  - by rewrite dict_set_fresh, dict_keys_snoc.
Qed.

Lemma dict_set_NoDup (d : seqdict) k v :
  NoDup (dict_keys d) → NoDup (dict_keys (dict_set d k v)).
Proof.
  intros Hnd. rewrite dict_keys_set. destruct (decide _) as [Hin|Hin]; [done|].
  apply NoDup_app. split_and!; [done| |apply NoDup_singleton].
  intros x Hx Hk. apply list_elem_of_singleton in Hk as ->. done.
Qed.

Lemma last_key_elem (d : seqdict) k : last_key d = Done k → k ∈ dict_keys d.
Proof.
  unfold last_key. destruct (last (dict_keys d)) as [k'|] eqn:E; [|done].
  intros [= ->]. apply last_Some in E as [l ->].
  apply elem_of_app. right. apply list_elem_of_here.
Qed.

(** The keys after one line: unchanged, or one header line more. *)
Lemma read_line_keys line (d : seqdict) :
  dict_keys (read_line line d).2 = dict_keys d ∨
  (startswith_marker line = true ∧ (line ∉ dict_keys d) ∧
   dict_keys (read_line line d).2 = dict_keys d ++ [line]).
Proof.
  unfold read_line. destruct (startswith_marker line) eqn:Hm; simpl.
  - rewrite dict_keys_set. destruct (decide _); [by left|by right].
  - left. destruct (last_key d) as [k|] eqn:Hk; [|done].
    destruct (dict_get d k); [|done]. simpl.
    apply dict_keys_set_elem. by apply last_key_elem.
Qed.

Lemma read_records_keys_ind (P : list str → Prop) (f : file) : ∀ d : seqdict,
  P (dict_keys d) →
  (∀ ks raw, P ks → raw ∈ f → startswith_marker (strip raw) = true →
             strip raw ∉ ks → P (ks ++ [strip raw])) →
  P (dict_keys (read_records f d).2).
Proof.
  induction f as [|raw f IH]; intros d Hd Hstep; simpl; [done|].
  destruct (strip raw) as [|c line] eqn:Hraw; [done|].
  assert (P (dict_keys (read_line (c :: line) d).2)) as H1.
  { destruct (read_line_keys (c :: line) d) as [->|(Hm & Hk & ->)]; [done|].
    rewrite <- Hraw in *. apply Hstep; try done. apply list_elem_of_here. }
  destruct (read_line (c :: line) d) as [[[]|e] d1]; simpl in *; [|done].
  apply IH; [done|]. intros ks raw' Hks Hin. apply Hstep; [done|].
  by apply list_elem_of_further.
Qed.

Lemma read_records_keys_distinct (f : file) r (d : seqdict) :
  read_records f [] = (r, d) → NoDup (dict_keys d).
Proof.
  intros E. change d with (r, d).2. rewrite <- E.
  apply (read_records_keys_ind NoDup); [constructor|].
  intros ks raw Hks _ _ Hk. apply NoDup_app. split_and!; [done| |apply NoDup_singleton].
  intros x Hx Hin. apply list_elem_of_singleton in Hin as ->. done.
Qed.

(** X1.  Whatever the file, the dictionary that the loader leaves (on
    return or on an exception) has pairwise distinct keys. *)
Theorem read_records_NoDup (f : file) :
  NoDup (dict_keys (read_records f []).2).
Proof.
  destruct (read_records f []) as [r d] eqn:E. simpl.
  by eapply read_records_keys_distinct.
Qed.

(** X2.  Every key of the dictionary that the loader leaves is a line of
    the file, stripped, and starts with the header marker. *)
Theorem read_records_keys_headers (f : file) (k : str) :
  k ∈ dict_keys (read_records f []).2 →
  startswith_marker k = true ∧ ∃ raw, raw ∈ f ∧ k = strip raw.
Proof.
  revert k.
  apply (read_records_keys_ind
    (λ ks, ∀ k, k ∈ ks → startswith_marker k = true ∧ ∃ raw, raw ∈ f ∧ k = strip raw)).
  - intros k Hk. inversion Hk.
  - intros ks raw Hks Hin Hm _ k Hk.
    apply elem_of_app in Hk as [Hk|Hk]; [by apply Hks|].
    apply list_elem_of_singleton in Hk as ->. eauto.
Qed.

Lemma read_records_keys_headers_witness :
  text ">b" ∈ dict_keys (read_records (open_file (text ">a
AC
 >b
GT
")) []).2 ∧
  startswith_marker (text ">b") = true ∧
  ∃ raw, raw ∈ open_file (text ">a
AC
 >b
GT
") ∧ text ">b" = strip raw.
Proof.
  assert (text ">b" ∈ dict_keys (read_records (open_file (text ">a
AC
 >b
GT
")) []).2) as H by (vm_compute; apply list_elem_of_further, list_elem_of_here).
  split; [exact H|]. exact (read_records_keys_headers _ _ H).
Defined.

Lemma read_records_sequence_lines (seqs f : file) : ∀ (d : seqdict) k v,
  k ∉ dict_keys d →
  Forall (λ raw, strip raw ≠ [] ∧ startswith_marker (strip raw) = false) seqs →
  read_records (seqs ++ f) (d ++ [(k, v)]) =
  read_records f (d ++ [(k, v ++ concat (strip <$> seqs))]).
Proof.
  induction seqs as [|raw seqs IH]; intros d k v Hk Hall; simpl.
  - by rewrite app_nil_r.
  - apply Forall_cons in Hall as [[Hne Hm] Hall].
    destruct (strip raw) as [|c line] eqn:Hraw; [done|].
    rewrite read_line_sequence by done.
    rewrite IH by done. by rewrite <- app_assoc.
Qed.

(** X3.  Whatever records the dictionary holds and whatever lines
    follow, a header line with a new key and the sequence lines after it
    (up to the next header or blank line) add one record at the end of
    the dictionary: its key is the stripped header line, its sequence
    the sequence lines, each stripped, joined in order.  The records
    before it stay as they are, and the scan goes on with the next
    line. *)
Theorem read_records_joins_lines (d : seqdict) (hdr : str) (seqs f : file) :
  startswith_marker (strip hdr) = true → strip hdr ∉ dict_keys d →
  Forall (λ raw, strip raw ≠ [] ∧ startswith_marker (strip raw) = false) seqs →
  read_records (hdr :: seqs ++ f) d =
  read_records f (d ++ [(strip hdr, concat (strip <$> seqs))]).
Proof.
  intros Hm Hk Hall. simpl.
  destruct (strip hdr) as [|c line] eqn:Hh; [done|].
  rewrite read_line_header by done.
  by rewrite (read_records_sequence_lines seqs f d (c :: line) [] Hk Hall).
Qed.

Lemma read_records_joins_lines_witness :
  startswith_marker (strip (text ">b ")) = true ∧
  (strip (text ">b ") ∉ dict_keys [(text ">a", text "TT")]) ∧
  Forall (λ raw, strip raw ≠ [] ∧ startswith_marker (strip raw) = false)
    [text "AC
"; text " GT "] ∧
  read_records (text ">b " :: [text "AC
"; text " GT "] ++ [text ">c"; text "AA"]) [(text ">a", text "TT")] =
  read_records [text ">c"; text "AA"]
    ([(text ">a", text "TT")] ++ [(strip (text ">b "), concat (strip <$> [text "AC
"; text " GT "]))]).
Proof.
  assert (startswith_marker (strip (text ">b ")) = true) as Hm by reflexivity.
  assert (strip (text ">b ") ∉ dict_keys [(text ">a", text "TT")]) as Hk
    by (apply (bool_decide_unpack _); vm_compute; exact I).
  assert (Forall (λ raw, strip raw ≠ [] ∧ startswith_marker (strip raw) = false)
            [text "AC
"; text " GT "]) as Hall.
  { repeat constructor; vm_compute; discriminate. }
  split; [exact Hm|]. split; [exact Hk|]. split; [exact Hall|].
  exact (read_records_joins_lines _ _ _ _ Hm Hk Hall).
Defined.

(** * Further properties of the range extractor *)

Lemma number_runs_snoc runs s e :
  number_runs (runs ++ [(s, e)]) =
  number_runs runs ++ [closed_range (Z.of_nat (length runs) + 1) s e].
Proof.
  unfold number_runs. rewrite imap_app. simpl. by rewrite Nat.add_0_r.
Qed.

Lemma closed_range_lookups id s e :
  closed_range id s e !! "id" = Some id ∧
  closed_range id s e !! "start" = Some s ∧
  closed_range id s e !! "end" = Some e ∧
  closed_range id s e !! "total" = Some (e - s + 1).
Proof. unfold closed_range, open_range. by simplify_map_eq. Qed.

Lemma runs_upto_weaken runs hi hi' :
  runs_upto runs hi → hi ≤ hi' → runs_upto runs hi'.
Proof.
  intros H Hle. destruct H as [hi|runs s e hi H ? ? ?].
  - constructor.
  - constructor; try done. lia.
Qed.

Lemma runs_upto_bounds runs hi s e :
  runs_upto runs hi → (s, e) ∈ runs → 0 ≤ s ∧ s ≤ e ∧ e ≤ hi.
Proof.
  intros H. revert s e. induction H as [hi|runs s0 e0 hi H IH ? ? ?]; intros s e Hin.
  - inversion Hin.
  - apply elem_of_app in Hin as [Hin|Hin].
    + destruct (IH s e Hin) as (? & ? & ?). lia.
    + apply list_elem_of_singleton in Hin as [= -> ->]. lia.
Qed.

Lemma runs_upto_separated runs hi j s1 e1 s2 e2 :
  runs_upto runs hi →
  runs !! j = Some (s1, e1) → runs !! S j = Some (s2, e2) → e1 + 1 < s2.
Proof.
  intros H. revert j s1 e1 s2 e2.
  induction H as [hi|runs s0 e0 hi H IH ? ? ?]; intros j s1 e1 s2 e2 Hj1 Hj2.
  - done.
  - destruct (decide (S j < length runs)%nat) as [Hlt|Hge].
    + rewrite lookup_app_l in Hj1, Hj2 by lia. by eapply IH.
    + pose proof (lookup_lt_Some _ _ _ Hj2) as Hlen.
      rewrite length_app in Hlen. simpl in Hlen.
      assert (S j = length runs) as Hj by lia.
      rewrite lookup_app_l in Hj1 by lia.
      rewrite Hj, list_lookup_middle in Hj2 by done. injection Hj2 as <- <-.
      apply list_elem_of_lookup_2 in Hj1.
      destruct (runs_upto_bounds _ _ _ _ H Hj1) as (? & ? & ?). lia.
Qed.

Lemma in_runs_snoc runs s e col :
  in_runs (runs ++ [(s, e)]) col ↔ in_runs runs col ∨ s ≤ col ≤ e.
Proof.
  unfold in_runs. split.
  - intros (s' & e' & Hin & Hc). apply elem_of_app in Hin as [Hin|Hin].
    + left. eauto.
    + apply list_elem_of_singleton in Hin as [= -> ->]. by right.
  - intros [(s' & e' & Hin & Hc)|Hc].
    + exists s', e'. split; [|done]. apply elem_of_app. by left.
    + exists s, e. split; [|done]. apply elem_of_app. right. apply list_elem_of_here.
Qed.

Lemma scan_spec_init : scan_spec [] scan_init.
Proof.
  unfold scan_spec. simpl. split_and!; try done.
  exists []. split_and!; try done; [constructor|]. intros col Hcol. lia.
Qed.

Lemma scan_char_spec p c s :
  scan_spec p s → ∃ s', scan_char c s = Done s' ∧ scan_spec (p ++ [c]) s'.
Proof.
  intros (Hpos & Hprev & runs & Hruns).
  assert (∀ col : nat, (col < length p + 1)%nat →
            (col < length p)%nat ∧ (p ++ [c]) !! col = p !! col ∨
            col = length p ∧ (p ++ [c]) !! col = Some c) as Hcol.
  { intros col Hlt.
    destruct (decide (col < length p)%nat).
    - left. by rewrite lookup_app_l.
    - right. assert (col = length p) as -> by lia.
      by rewrite list_lookup_middle. }
  unfold scan_char. destruct (decide (c = GAP)) as [->|Hc].
  - destruct (prev_char s) eqn:Hp.
    + destruct Hruns as (st & Hl & Hn & Hup & Hst & Hcov).
      eexists. split; [reflexivity|]. unfold scan_spec. simpl.
      rewrite last_snoc, length_app. simpl.
      split_and!; [lia|done|]. exists runs, st.
      split_and!; try done; try lia.
      intros col Hlt. destruct (Hcol col Hlt) as [[Hlt' ->]|[-> ->]].
      * by apply Hcov.
      * split; [intros _; right; lia|done].
    + destruct Hruns as (Hl & Hn & Hup & Hcov).
      eexists. split; [reflexivity|]. unfold scan_spec. simpl.
      rewrite last_snoc, length_app. simpl.
      split_and!; [lia|done|]. exists runs, (pos s).
      split_and!; try lia.
      * rewrite Hl, Hn. done.
      * by rewrite Hpos.
      * intros col Hlt. destruct (Hcol col Hlt) as [[Hlt' ->]|[-> ->]].
        -- rewrite Hcov by done. split; [by left|]. intros [?|?]; [done|lia].
        -- split; [intros _; right; lia|done].
  - destruct (prev_char s) eqn:Hp.
    + destruct Hruns as (st & Hl & Hn & Hup & Hst & Hcov).
      rewrite Hl, list_last_snoc. simpl.
      destruct (open_range_lookups (Z.of_nat (length runs) + 1) st) as (_ & Hs & _ & _).
      unfold range_get. rewrite lookup_insert_eq. simpl.
      rewrite lookup_insert_ne, Hs by done. simpl.
      eexists. split; [reflexivity|]. unfold scan_spec. simpl.
      rewrite last_snoc, length_app. simpl.
      split_and!; [lia|by rewrite bool_decide_eq_false_2|].
      exists (runs ++ [(st, pos s - 1)]).
      assert (runs_upto (runs ++ [(st, pos s - 1)]) (pos s - 1)) as Hup'.
      { constructor; try done; lia. }
      split_and!.
      * by rewrite set_last_snoc, number_runs_snoc.
      * rewrite length_app. simpl. lia.
      * eapply runs_upto_weaken; [exact Hup'|lia].
      * intros col Hlt. rewrite in_runs_snoc.
        destruct (Hcol col Hlt) as [[Hlt' ->]|[-> ->]].
        -- rewrite Hcov by done. split; (intros [?|?]; [by left|right; lia]).
        -- split; [congruence|]. intros [Hin|?]; [|lia].
           destruct Hin as (s0 & e0 & Hin & ?).
           destruct (runs_upto_bounds _ _ _ _ Hup Hin) as (? & ? & ?). lia.
    + destruct Hruns as (Hl & Hn & Hup & Hcov).
      eexists. split; [reflexivity|]. unfold scan_spec. simpl.
      rewrite last_snoc, length_app. simpl.
      split_and!; [lia|by rewrite bool_decide_eq_false_2|].
      exists runs. split_and!; try done.
      * eapply runs_upto_weaken; [exact Hup|lia].
      * intros col Hlt. destruct (Hcol col Hlt) as [[Hlt' ->]|[-> ->]].
        -- by apply Hcov.
        -- split; [congruence|]. intros (s0 & e0 & Hin & ?).
           destruct (runs_upto_bounds _ _ _ _ Hup Hin) as (? & ? & ?). lia.
Qed.

Lemma scan_seq_spec q : ∀ p s,
  scan_spec p s → ∃ s', scan_seq q s = Done s' ∧ scan_spec (p ++ q) s'.
Proof.
  induction q as [|c q IH]; intros p s Hs; simpl.
  - exists s. by rewrite app_nil_r.
  - destruct (scan_char_spec p c s Hs) as (s1 & -> & H1). simpl.
    destruct (IH _ _ H1) as (s' & E & H'). exists s'. split; [done|].
    by rewrite <- app_assoc in H'.
Qed.

Lemma process_ref_genome_spec k seq :
  ∃ s, process_ref_genome [(k, seq)] = Done (flank_range_list s) ∧
       scan_spec seq s.
Proof.
  destruct (scan_seq_spec seq [] scan_init scan_spec_init) as (s & E & H).
  exists s. rewrite process_ref_genome_single, E. done.
Qed.

Lemma number_runs_lookup runs j r :
  number_runs runs !! j = Some r →
  ∃ s e, runs !! j = Some (s, e) ∧ r = closed_range (Z.of_nat j + 1) s e.
Proof.
  unfold number_runs. rewrite list_lookup_imap.
  destruct (runs !! j) as [[s e]|]; [|done]. simpl. intros [= <-]. eauto.
Qed.

Lemma number_runs_length runs : length (number_runs runs) = length runs.
Proof. unfold number_runs. by rewrite length_imap. Qed.

Lemma number_runs_elem runs r :
  r ∈ number_runs runs →
  ∃ id s e, (s, e) ∈ runs ∧ r = closed_range id s e.
Proof.
  intros Hin. apply list_elem_of_lookup in Hin as [j Hj].
  apply number_runs_lookup in Hj as (s & e & Hj & ->).
  exists (Z.of_nat j + 1), s, e. split; [|done]. by eapply list_elem_of_lookup_2.
Qed.

Lemma covers_closed_range id s e col :
  covers (closed_range id s e) col = bool_decide (s ≤ Z.of_nat col ∧ Z.of_nat col ≤ e).
Proof.
  destruct (closed_range_lookups id s e) as (_ & Hs & He & _).
  unfold covers. by rewrite Hs, He.
Qed.

Lemma covered_number_runs runs col :
  covered (number_runs runs) col = true ↔ in_runs runs (Z.of_nat col).
Proof.
  unfold covered, in_runs. rewrite existsb_exists. split.
  - intros (r & Hin & Hc). apply list_elem_of_In in Hin.
    apply number_runs_elem in Hin as (id & s & e & Hin & ->).
    rewrite covers_closed_range in Hc. apply bool_decide_eq_true in Hc.
    exists s, e. split; [done|lia].
  - intros (s & e & Hin & Hc). apply list_elem_of_lookup in Hin as [j Hj].
    exists (closed_range (Z.of_nat j + 1) s e). split.
    + apply list_elem_of_In. apply list_elem_of_lookup. exists j.
      unfold number_runs. by rewrite list_lookup_imap, Hj.
    + rewrite covers_closed_range. apply bool_decide_eq_true. lia.
Qed.

Lemma number_runs_valid runs hi n :
  runs_upto runs hi → hi < Z.of_nat n →
  forallb (valid_range n) (number_runs runs) = true.
Proof.
  intros Hup Hhi. apply forallb_forall. intros r Hin.
  apply list_elem_of_In, number_runs_elem in Hin as (id & s & e & Hin & ->).
  destruct (runs_upto_bounds _ _ _ _ Hup Hin) as (? & ? & ?).
  destruct (closed_range_lookups id s e) as (_ & Hs & He & Ht).
  unfold valid_range. rewrite Hs, He, Ht.
  apply bool_decide_eq_true. lia.
Qed.

(** What [process_ref_genome] returns for a reference that does not end
    in a gap character. *)
Lemma process_ref_genome_closed k seq :
  last seq ≠ Some GAP →
  ∃ runs, process_ref_genome [(k, seq)] = Done (number_runs runs) ∧
          runs_upto runs (Z.of_nat (length seq) - 2) ∧
          ∀ col : nat, (col < length seq)%nat →
            (seq !! col = Some GAP ↔ in_runs runs (Z.of_nat col)).
Proof.
  intros Hlast.
  destruct (process_ref_genome_spec k seq) as (s & E & _ & Hprev & runs & Hruns).
  assert (prev_char s = false) as Hp.
  { rewrite Hprev. destruct (last seq) as [c|]; [|done].
    apply bool_decide_eq_false_2. congruence. }
  rewrite Hp in Hruns. destruct Hruns as (Hl & _ & Hup & Hcov).
  exists runs. by rewrite E, Hl.
Qed.

(** X4.  For every reference sequence [process_ref_genome] returns a
    list (it raises nothing); the ranges are numbered 1, 2, ... in list
    order, and each range starts at least two columns after the end of
    the range before it: the ranges are ascending and never overlap or
    touch. *)
Theorem process_ref_genome_ordered (k seq : str) :
  ∃ l, process_ref_genome [(k, seq)] = Done l ∧
       (∀ j r, l !! j = Some r → r !! "id" = Some (Z.of_nat j + 1)) ∧
       (∀ j r1 r2, l !! j = Some r1 → l !! S j = Some r2 →
          ∃ e1 s2, r1 !! "end" = Some e1 ∧ r2 !! "start" = Some s2 ∧ e1 + 1 < s2).
Proof.
  destruct (process_ref_genome_spec k seq) as (s & E & _ & _ & runs & Hruns).
  exists (flank_range_list s). split; [exact E|].
  destruct (prev_char s).
  - destruct Hruns as (st & -> & _ & Hup & _ & _).
    pose proof (number_runs_length runs) as Hlen.
    assert (∀ j r, (number_runs runs ++ [open_range (Z.of_nat (length runs) + 1) st]) !! j = Some r →
              (∃ s0 e0, runs !! j = Some (s0, e0) ∧ r = closed_range (Z.of_nat j + 1) s0 e0) ∨
              (j = length runs ∧ r = open_range (Z.of_nat j + 1) st)) as Hcases.
    { intros j r Hj. destruct (decide (j < length runs)%nat).
      - rewrite lookup_app_l in Hj by lia. left. by apply number_runs_lookup.
      - pose proof (lookup_lt_Some _ _ _ Hj) as Hlt.
        rewrite length_app in Hlt. simpl in Hlt.
        assert (j = length runs) as -> by lia.
        rewrite <- Hlen, list_lookup_middle in Hj by done.
        injection Hj as <-. right. by rewrite Hlen. }
    split.
    + intros j r Hj. destruct (Hcases j r Hj) as [(s0 & e0 & _ & ->)|[_ ->]].
      * apply closed_range_lookups.
      * apply open_range_lookups.
    + intros j r1 r2 H1 H2.
      destruct (Hcases j r1 H1) as [(s1 & e1 & Hr1 & ->)|[Hj _]].
      2:{ apply lookup_lt_Some in H2. rewrite length_app in H2. simpl in H2. lia. }
      exists e1.
      destruct (Hcases (S j) r2 H2) as [(s2 & e2 & Hr2 & ->)|[_ ->]].
      * exists s2. split_and!; [apply closed_range_lookups..|].
        by eapply runs_upto_separated.
      * exists st. split_and!; [apply closed_range_lookups|apply open_range_lookups|].
        apply list_elem_of_lookup_2 in Hr1.
        destruct (runs_upto_bounds _ _ _ _ Hup Hr1) as (? & ? & ?). lia.
  - destruct Hruns as (-> & _ & Hup & _). split.
    + intros j r Hj. apply number_runs_lookup in Hj as (s0 & e0 & _ & ->).
      apply closed_range_lookups.
    + intros j r1 r2 H1 H2.
      apply number_runs_lookup in H1 as (s1 & e1 & Hr1 & ->).
      apply number_runs_lookup in H2 as (s2 & e2 & Hr2 & ->).
      exists e1, s2. split_and!; [apply closed_range_lookups..|].
      by eapply runs_upto_separated.
Qed.

(** X5.  For a reference that does not end in a gap character the
    ranges of [process_ref_genome] are closed, lie inside the sequence,
    and cover exactly the columns in which the reference has the gap
    character. *)
Theorem process_ref_genome_gap_columns (k seq : str) :
  last seq ≠ Some GAP →
  ∃ l, process_ref_genome [(k, seq)] = Done l ∧
       forallb (valid_range (length seq)) l = true ∧
       ∀ col : nat, covered l col = true ↔ seq !! col = Some GAP.
Proof.
  intros Hlast.
  destruct (process_ref_genome_closed k seq Hlast) as (runs & E & Hup & Hcov).
  exists (number_runs runs). split; [exact E|]. split.
  - eapply number_runs_valid; [exact Hup|lia].
  - intros col. rewrite covered_number_runs.
    destruct (decide (col < length seq)%nat) as [Hlt|Hge].
    + symmetry. by apply Hcov.
    + split.
      * intros (s0 & e0 & Hin & ?).
        destruct (runs_upto_bounds _ _ _ _ Hup Hin) as (? & ? & ?). lia.
      * intros Hc. apply lookup_lt_Some in Hc. lia.
Qed.

Lemma process_ref_genome_gap_columns_witness :
  last (text "AC--GT-A") ≠ Some GAP ∧
  ∃ l, process_ref_genome [(text ">ref", text "AC--GT-A")] = Done l ∧
       forallb (valid_range (length (text "AC--GT-A"))) l = true ∧
       ∀ col : nat, covered l col = true ↔ text "AC--GT-A" !! col = Some GAP.
Proof.
  assert (last (text "AC--GT-A") ≠ Some GAP) as H by (vm_compute; discriminate).
  split; [exact H|].
  exact (process_ref_genome_gap_columns (text ">ref") (text "AC--GT-A") H).
Defined.

Lemma process_ref_genome_nil_iff (k seq : str) :
  process_ref_genome [(k, seq)] = Done [] ↔ GAP ∉ seq.
Proof.
  destruct (process_ref_genome_spec k seq) as (s & E & _ & Hprev & runs & Hruns).
  rewrite E. split.
  - intros [= Hnil]. rewrite Hnil in Hruns. destruct (prev_char s).
    + destruct Hruns as (st & Hl & _). by destruct (number_runs runs).
    + destruct Hruns as (Hl & _ & _ & Hcov).
      assert (runs = []) as ->.
      { apply (f_equal length) in Hl. rewrite number_runs_length in Hl.
        by destruct runs. }
      intros Hin. apply list_elem_of_lookup in Hin as [col Hc].
      apply Hcov in Hc; [|by eapply lookup_lt_Some].
      destruct Hc as (? & ? & Hin & _). inversion Hin.
  - intros Hno. f_equal.
    assert (prev_char s = false) as Hp.
    { rewrite Hprev. destruct (last seq) as [c|] eqn:El; [|done].
      apply bool_decide_eq_false_2. intros ->. apply Hno.
      apply last_Some in El as [l' ->]. apply elem_of_app. right.
      apply list_elem_of_here. }
    rewrite Hp in Hruns. destruct Hruns as (-> & _ & Hup & Hcov).
    destruct runs as [|[s0 e0] runs]; [done|]. exfalso.
    assert ((s0, e0) ∈ (s0, e0) :: runs) as Hin by apply list_elem_of_here.
    destruct (runs_upto_bounds _ _ _ _ Hup Hin) as (? & ? & ?).
    apply Hno. apply list_elem_of_lookup. exists (Z.to_nat s0).
    apply Hcov; [lia|]. exists s0, e0. split; [done|lia].
Qed.

(** X6.  [process_ref_genome] returns the empty list exactly when the
    reference has no gap character. *)
Theorem process_ref_genome_no_gap (k seq : str) :
  process_ref_genome [(k, seq)] = Done [] ↔ GAP ∉ seq.
Proof. apply process_ref_genome_nil_iff. Qed.

(** * Further properties of the mask applier and of the script *)

Lemma valid_range_mono n m r :
  (n ≤ m)%nat → valid_range n r = true → valid_range m r = true.
Proof.
  intros Hle H. apply valid_range_inv in H as (s & e & Hs & He & Ht & ? & ? & ?).
  unfold valid_range. rewrite Hs, He, Ht. apply bool_decide_eq_true. lia.
Qed.

(** Masking with the ranges of a reference that does not end in a gap
    character. *)
Lemma mask_by_reference (k seq : str) (d : seqdict) :
  last seq ≠ Some GAP → NoDup (dict_keys d) →
  ∃ l d', process_ref_genome [(k, seq)] = Done l ∧
          process_aligned_seq l d = (Done (), d') ∧
          dict_keys d' = dict_keys d ∧
          ∀ i key value, d !! i = Some (key, value) →
            (length seq ≤ length value)%nat →
            ∃ value', d' !! i = Some (key, value') ∧
                      length value' = length value ∧
                      ∀ col c, value !! col = Some c →
                        value' !! col =
                        Some (if bool_decide (seq !! col = Some GAP) then GAP else c).
Proof.
  intros Hlast Hnd.
  destruct (process_ref_genome_closed k seq Hlast) as (runs & E & Hup & Hcov).
  assert (forallb (valid_range (length seq)) (number_runs runs) = true) as Hval.
  { eapply number_runs_valid; [exact Hup|lia]. }
  rewrite forallb_forall in Hval.
  assert (Forall (λ r, complete r = true) (number_runs runs)) as Hc.
  { apply Forall_forall. intros r Hr. eapply valid_range_complete.
    apply Hval. by apply list_elem_of_In. }
  exists (number_runs runs), (prod_map id (masked (number_runs runs)) <$> d).
  split; [exact E|]. split; [by apply process_aligned_seq_spec|]. split.
  { unfold dict_keys. rewrite <- list_fmap_compose. apply list_fmap_ext.
    by intros i [k0 v0] _. }
  intros i key value Hi Hlen.
  assert (Forall (λ r, valid_range (length value) r = true) (number_runs runs)) as Hv.
  { apply Forall_forall. intros r Hr. eapply valid_range_mono; [exact Hlen|].
    apply Hval. by apply list_elem_of_In. }
  destruct (mask_all_valid _ value Hv) as (v' & Ev & L & C).
  exists v'. rewrite list_lookup_fmap, Hi. simpl. unfold masked. rewrite Ev.
  split_and!; try done. intros col c Hc'. rewrite (C col c Hc'). f_equal.
  destruct (covered (number_runs runs) col) eqn:Hcv.
  - rewrite bool_decide_eq_true_2; [done|].
    apply covered_number_runs in Hcv. destruct (decide (col < length seq)%nat).
    + by apply Hcov.
    + destruct Hcv as (s0 & e0 & Hin & ?).
      destruct (runs_upto_bounds _ _ _ _ Hup Hin) as (? & ? & ?). lia.
  - rewrite bool_decide_eq_false_2; [done|]. intros Hg.
    assert (covered (number_runs runs) col = true); [|congruence].
    apply covered_number_runs. apply Hcov; [|done]. by eapply lookup_lt_Some.
Qed.

(** X7.  Masking an alignment with the ranges of a reference that does
    not end in a gap character leaves the reference's own record, where
    the alignment holds it, unchanged. *)
Theorem mask_keeps_reference (k seq : str) (d : seqdict) (i : nat) (key : str) :
  last seq ≠ Some GAP → NoDup (dict_keys d) → d !! i = Some (key, seq) →
  ∃ l d', process_ref_genome [(k, seq)] = Done l ∧
          process_aligned_seq l d = (Done (), d') ∧
          d' !! i = Some (key, seq).
Proof.
  intros Hlast Hnd Hi.
  destruct (mask_by_reference k seq d Hlast Hnd) as (l & d' & E & Ea & _ & H).
  destruct (H i key seq Hi (le_n _)) as (v' & Hv' & L & C).
  exists l, d'. split_and!; try done. rewrite Hv'. do 2 f_equal.
  apply list_eq. intros col. destruct (seq !! col) as [c|] eqn:Hc.
  - rewrite (C col c Hc). destruct (decide (c = GAP)) as [->|Hne].
    + by rewrite bool_decide_eq_true_2.
    + rewrite bool_decide_eq_false_2; [done|congruence].
  - apply lookup_ge_None. rewrite L. by apply lookup_ge_None.
Qed.

Lemma mask_keeps_reference_witness :
  last (text "AC--GT-A") ≠ Some GAP ∧
  NoDup (dict_keys [(text ">s", text "TTTTTTTT"); (text ">ref", text "AC--GT-A")]) ∧
  ∃ l d', process_ref_genome [(text ">ref", text "AC--GT-A")] = Done l ∧
          process_aligned_seq l
            [(text ">s", text "TTTTTTTT"); (text ">ref", text "AC--GT-A")] =
            (Done (), d') ∧
          d' !! 1%nat = Some (text ">ref", text "AC--GT-A").
Proof.
  assert (last (text "AC--GT-A") ≠ Some GAP) as H by (vm_compute; discriminate).
  assert (NoDup (dict_keys [(text ">s", text "TTTTTTTT");
                            (text ">ref", text "AC--GT-A")])) as Hnd.
  { apply (bool_decide_unpack _). vm_compute. exact I. }
  split; [exact H|]. split; [exact Hnd|].
  exact (mask_keeps_reference (text ">ref") (text "AC--GT-A") _ 1%nat
           (text ">ref") H Hnd eq_refl).
Defined.

(** X8.  A run of the script whose reference file holds one record that
    does not end in a gap character, and whose alignment file loads,
    ends normally and writes the alignment dictionary with the keys it
    had, in their order; in every sequence that is at least as long as
    the reference, each column in which the reference has the gap
    character holds the gap character and each other column is
    unchanged. *)
Theorem main_cleans (msa_text ref_text k seq : str) (d : seqdict) :
  read_records (open_file ref_text) [] = (Done (), [(k, seq)]) →
  last seq ≠ Some GAP →
  read_records (open_file msa_text) [] = (Done (), d) →
  ∃ d', outcome (main msa_text ref_text) = Done () ∧
        self_seqdict (MSA (main msa_text ref_text)) = d' ∧
        output (main msa_text ref_text) = Some (save_output d') ∧
        dict_keys d' = dict_keys d ∧
        ∀ i key value, d !! i = Some (key, value) →
          (length seq ≤ length value)%nat →
          ∃ value', d' !! i = Some (key, value') ∧
                    length value' = length value ∧
                    ∀ col c, value !! col = Some c →
                      value' !! col =
                      Some (if bool_decide (seq !! col = Some GAP) then GAP else c).
Proof.
  intros Href Hlast Hmsa.
  pose proof (read_records_keys_distinct _ _ _ Hmsa) as Hnd.
  destruct (mask_by_reference k seq d Hlast Hnd) as (l & d' & E & Ea & Hk & H).
  exists d'. unfold main.
  rewrite (read_file_reference _ _ Href), E. simpl.
  rewrite (read_file_aligned _ _ _ Hmsa), Ea. simpl. done.
Qed.

Lemma main_cleans_witness :
  ∃ d', outcome (main (text ">s
TTTTTTTT
>ref
AC--GT-A
") (text ">ref
AC--GT-A
")) = Done () ∧
        self_seqdict (MSA (main (text ">s
TTTTTTTT
>ref
AC--GT-A
") (text ">ref
AC--GT-A
"))) = d' ∧
        output (main (text ">s
TTTTTTTT
>ref
AC--GT-A
") (text ">ref
AC--GT-A
")) = Some (save_output d') ∧
        d' = [(text ">s", text "TT--TT-T"); (text ">ref", text "AC--GT-A")].
Proof.
  assert (read_records (open_file (text ">ref
AC--GT-A
")) [] = (Done (), [(text ">ref", text "AC--GT-A")])) as Href
    by (vm_compute; reflexivity).
  assert (last (text "AC--GT-A") ≠ Some GAP) as Hlast by (vm_compute; discriminate).
  assert (read_records (open_file (text ">s
TTTTTTTT
>ref
AC--GT-A
")) [] = (Done (), [(text ">s", text "TTTTTTTT"); (text ">ref", text "AC--GT-A")]))
    as Hmsa by (vm_compute; reflexivity).
  destruct (main_cleans _ _ _ _ _ Href Hlast Hmsa) as (d' & H1 & H2 & H3 & _).
  exists d'. split; [exact H1|]. split; [exact H2|]. split; [exact H3|].
  rewrite <- H2. vm_compute. reflexivity.
Defined.

Lemma read_file_raises f seq_type rs e (d : seqdict) :
  read_records f [] = (Raised e, d) →
  (read_file f seq_type rs Sequence_init).1 = Raised e.
Proof. intros H. unfold read_file. simpl. by rewrite H. Qed.

Lemma trailing_gap_mask_raises (k seq key value : str) (rest : seqdict) :
  last seq = Some GAP →
  ∃ l, process_ref_genome [(k, seq)] = Done l ∧
       (process_aligned_seq l ((key, value) :: rest)).1 = Raised (KeyError "end").
Proof.
  intros Hlast.
  destruct (scan_seq_inv seq scan_init scan_inv_init) as (s' & E & [_ I] & _ & P).
  rewrite Hlast, bool_decide_eq_true_2 in P by done. rewrite P in I.
  destruct I as (l & i & st & L & Hl & _).
  destruct (open_range_lookups i st) as (_ & Hs & He & _).
  destruct (ranges_loop_open_last l (open_range i st) key rest Hl
              (mk_is_Some _ _ Hs) He value) as (value' & Hloop).
  exists (l ++ [open_range i st]). split.
  - rewrite process_ref_genome_single, E. simpl. by rewrite L.
  - unfold process_aligned_seq. simpl. by rewrite Hloop.
Qed.

(** X9.  A run of the script creates the output file exactly when the
    reference file loads as one record, the alignment file loads, and
    either the alignment has no record or the reference sequence does
    not end in a gap character. *)
Theorem main_writes_iff (msa_text ref_text : str) :
  is_Some (output (main msa_text ref_text)) ↔
  ∃ k seq d,
    read_records (open_file ref_text) [] = (Done (), [(k, seq)]) ∧
    read_records (open_file msa_text) [] = (Done (), d) ∧
    (d = [] ∨ last seq ≠ Some GAP).
Proof.
  split.
  - unfold main.
    destruct (read_records (open_file ref_text) []) as [[[]|e] dref] eqn:Href.
    2:{ pose proof (read_file_raises _ "reference_genome" [] _ _ Href) as Hr.
        destruct (read_file (open_file ref_text) _ _ _) as [r ref].
        simpl in Hr. subst r. simpl. by intros [? ?]. }
    rewrite (read_file_reference _ _ Href).
    destruct dref as [|[k seq] [|kv dref]].
    + simpl. by intros [? ?].
    + destruct (read_records (open_file msa_text) []) as [[[]|e] d] eqn:Hmsa.
      2:{ destruct (process_ref_genome [(k, seq)]) as [l|e']; simpl;
            [|by intros [? ?]].
          pose proof (read_file_raises _ "aligned_sequences" l _ _ Hmsa) as Hr.
          destruct (read_file (open_file msa_text) _ _ _) as [r m].
          simpl in Hr. subst r. simpl. by intros [? ?]. }
      intros Hout. exists k, seq, d. split_and!; try done.
      destruct d as [|[key value] rest]; [by left|]. right. intros Hlast.
      destruct (trailing_gap_mask_raises k seq key value rest Hlast)
        as (l & El & Ea).
      rewrite El in Hout. simpl in Hout.
      rewrite (read_file_aligned _ _ _ Hmsa), Ea in Hout. simpl in Hout.
      by destruct Hout.
    + unfold process_ref_genome, dict_keys.
      rewrite decide_True by (simpl; lia). simpl. by intros [? ?].
  - intros (k & seq & d & Href & Hmsa & Hd). unfold main.
    rewrite (read_file_reference _ _ Href).
    destruct Hd as [->|Hlast].
    + destruct (process_ref_genome_spec k seq) as (s & -> & _). simpl.
      rewrite (read_file_aligned _ _ _ Hmsa). by eexists.
    + pose proof (read_records_keys_distinct _ _ _ Hmsa) as Hnd.
      destruct (mask_by_reference k seq d Hlast Hnd) as (l & d' & -> & Ea & _).
      simpl. rewrite (read_file_aligned _ _ _ Hmsa), Ea. by eexists.
Qed.

(** X10.  When the alignment file gives no record (it is empty or starts
    with a blank line) and the reference file holds one record, the run
    ends normally and writes an empty output file, whatever the ranges
    of the reference are. *)
Theorem main_empty_alignment (msa_text ref_text k seq : str) :
  read_records (open_file ref_text) [] = (Done (), [(k, seq)]) →
  read_records (open_file msa_text) [] = (Done (), []) →
  outcome (main msa_text ref_text) = Done () ∧
  output (main msa_text ref_text) = Some [].
Proof.
  intros Href Hmsa.
  destruct (process_ref_genome_spec k seq) as (s & E & _).
  unfold main. rewrite (read_file_reference _ _ Href), E. simpl.
  rewrite (read_file_aligned _ _ _ Hmsa). done.
Qed.

Lemma main_empty_alignment_witness :
  outcome (main (text "
>ref
ACGT--
") (text ">ref
ACGT--
")) = Done () ∧
  output (main (text "
>ref
ACGT--
") (text ">ref
ACGT--
")) = Some [].
Proof.
  apply (main_empty_alignment _ _ (text ">ref") (text "ACGT--")).
  - vm_compute. reflexivity.
  - vm_compute. reflexivity.
Defined.

(** X11.  [mask_range] checks no bound: for a closed range a sequence
    that ends before the range starts grows by the length of the range,
    and a sequence that ends inside the range grows to the end of the
    range; no sequence gets shorter. *)
Theorem mask_range_length (r : range) (v : str) (s e : Z) :
  r !! "start" = Some s → r !! "end" = Some e →
  r !! "total" = Some (e - s + 1) → 0 ≤ s ≤ e →
  ∃ v', mask_range r v = Done v' ∧
        Z.of_nat (length v') =
          if decide (Z.of_nat (length v) ≤ s)
          then Z.of_nat (length v) + (e - s + 1)
          else Z.max (Z.of_nat (length v)) (e + 1).
Proof.
  intros Hs He Ht Hse. unfold mask_range, range_get. rewrite Hs, He, Ht. simpl.
  eexists. split; [reflexivity|].
  unfold slice_to, slice_from, gaps, slice_bound.
  rewrite !length_app, length_take, length_replicate, length_drop.
  destruct (Z.ltb_spec s 0); [lia|]. destruct (Z.ltb_spec (e + 1) 0); [lia|].
  destruct (decide (Z.of_nat (length v) ≤ s)); lia.
Qed.

Lemma mask_range_length_witness :
  ∃ v', mask_range (closed_range 1 4 5) (text "AC") = Done v' ∧
        Z.of_nat (length v') =
          if decide (Z.of_nat (length (text "AC")) ≤ 4)
          then Z.of_nat (length (text "AC")) + (5 - 4 + 1)
          else Z.max (Z.of_nat (length (text "AC"))) (5 + 1).
Proof.
  apply (mask_range_length (closed_range 1 4 5) (text "AC") 4 5);
    [reflexivity|reflexivity|reflexivity|lia].
Defined.

Lemma missing_key_mask_range r mk (v : str) :
  missing_key r = Some mk → mask_range r v = Raised (KeyError mk).
Proof.
  unfold missing_key, mask_range, range_get.
  destruct (r !! "start"); [|by intros [= <-]].
  destruct (r !! "end"); [|by intros [= <-]].
  destruct (r !! "total"); [done|by intros [= <-]].
Qed.

Lemma ranges_loop_missing_key l r rs mk key (rest : seqdict) :
  Forall (λ r, complete r = true) l → missing_key r = Some mk →
  ∀ v, ranges_loop (l ++ r :: rs) key v ((key, v) :: rest) =
       (Raised (KeyError mk), (key, masked l v) :: rest).
Proof.
  intros Hl Hmk. induction Hl as [|r0 l H0 Hl IH]; intros v; simpl.
  - by rewrite (missing_key_mask_range r mk v Hmk).
  - destruct (complete_mask_all [r0] v) as (v1 & E1); [by constructor|].
    simpl in E1. destruct (mask_range r0 v) as [v1'|] eqn:E0; [|done].
    simpl in E1. injection E1 as ->.
    rewrite decide_True by done. simpl. rewrite decide_True by done.
    rewrite IH. unfold masked. simpl. rewrite E0. simpl.
    by destruct (complete_mask_all l v1 Hl) as (v2 & ->).
Qed.

(** X12.  When a range of the list lacks one of the keys [start], [end],
    [total] and the ranges before it have all three, [process_aligned_seq]
    raises the missing-key error for the first key that is lacking, in
    the order start, end, total; it does so on the first record, which by
    then carries the ranges before the incomplete one, and the other
    records are untouched. *)
Theorem process_aligned_seq_missing_key (l : list range) (r : range)
    (rs : list range) (mk : string) (key value : str) (rest : seqdict) :
  Forall (λ r, complete r = true) l → missing_key r = Some mk →
  process_aligned_seq (l ++ r :: rs) ((key, value) :: rest) =
  (Raised (KeyError mk), (key, masked l value) :: rest).
Proof.
  intros Hl Hmk. unfold process_aligned_seq. simpl.
  by rewrite (ranges_loop_missing_key l r rs mk key rest Hl Hmk value).
Qed.

Lemma process_aligned_seq_missing_key_witness :
  Forall (λ r, complete r = true) [closed_range 1 2 3] ∧
  missing_key {[ "id" := 2; "start" := 6; "end" := 7 ]} = Some "total" ∧
  process_aligned_seq
    ([closed_range 1 2 3] ++ {[ "id" := 2; "start" := 6; "end" := 7 ]} :: [])
    ((text ">a", text "TTTTTTTT") :: [(text ">b", text "CCCCCCCC")]) =
  (Raised (KeyError "total"),
   (text ">a", masked [closed_range 1 2 3] (text "TTTTTTTT"))
     :: [(text ">b", text "CCCCCCCC")]).
Proof.
  assert (Forall (λ r, complete r = true) [closed_range 1 2 3]) as Hl
    by (repeat constructor).
  assert (missing_key {[ "id" := 2; "start" := 6; "end" := 7 ]} = Some "total")
    as Hmk by reflexivity.
  split; [exact Hl|]. split; [exact Hmk|].
  exact (process_aligned_seq_missing_key _ _ [] _ _ _ _ Hl Hmk).
Defined.

(** X13.  When no key and no sequence holds a line feed or a carriage
    return, the text that [save_output] writes reads as two lines for
    each record, in the order of the dictionary: the key, then the whole
    sequence on one line. *)
Theorem save_output_lines (d : seqdict) :
  Forall (λ kv, no_break kv.1 ∧ no_break kv.2) d →
  open_file (save_output d) = flat_map (λ kv, [kv.1 ++ [LF]; kv.2 ++ [LF]]) d.
Proof.
  unfold open_file. induction 1 as [|[k v] d [Hk Hv] Hd IH]; [done|].
  simpl in Hk, Hv.
  replace (save_output ((k, v) :: d))
    with (k ++ LF :: (v ++ LF :: save_output d))
    by (simpl; rewrite <- app_assoc; simpl; by rewrite <- app_assoc).
  rewrite !lines_from_line by done. simpl. by rewrite IH.
Qed.

Lemma save_output_lines_witness :
  Forall (λ kv : str * str, no_break kv.1 ∧ no_break kv.2) example_store ∧
  open_file (save_output example_store) =
  flat_map (λ kv, [kv.1 ++ [LF]; kv.2 ++ [LF]]) example_store.
Proof.
  assert (Forall (λ kv : str * str, no_break kv.1 ∧ no_break kv.2) example_store)
    as H.
  { repeat constructor; simpl; apply (bool_decide_unpack _); vm_compute; exact I. }
  split; [exact H|]. exact (save_output_lines example_store H).
Defined.

(** ** File names *)

Lemma basename_from_no_slash p : ∀ cur,
  SLASH ∉ cur → SLASH ∉ basename_from cur p.
Proof.
  induction p as [|c p IH]; intros cur Hcur; simpl; [done|].
  destruct (decide (c = SLASH)).
  - apply IH. apply not_elem_of_nil.
  - apply IH. intros Hin. apply elem_of_app in Hin as [Hin|Hin]; [done|].
    by apply list_elem_of_singleton in Hin.
Qed.

Lemma basename_from_plain p : ∀ cur,
  SLASH ∉ p → basename_from cur p = cur ++ p.
Proof.
  induction p as [|c p IH]; intros cur Hp; simpl.
  - by rewrite app_nil_r.
  - apply not_elem_of_cons in Hp as [Hc Hp].
    rewrite decide_False by done. rewrite IH by done. by rewrite <- app_assoc.
Qed.

Lemma prefixed_no_slash (pre p : str) :
  SLASH ∉ pre → SLASH ∉ pre ++ basename p.
Proof.
  intros Hpre Hin. apply elem_of_app in Hin as [Hin|Hin]; [done|].
  revert Hin. apply basename_from_no_slash, not_elem_of_nil.
Qed.

Lemma prefixed_differs (pre p : str) :
  SLASH ∉ pre → pre ≠ [] → pre ++ basename p ≠ p.
Proof.
  intros Hpre Hne Heq. destruct (decide (SLASH ∈ p)) as [Hin|Hno].
  - rewrite <- Heq in Hin. by apply (prefixed_no_slash pre p).
  - unfold basename in Heq. rewrite basename_from_plain in Heq by done.
    simpl in Heq. apply (f_equal length) in Heq. rewrite length_app in Heq.
    destruct pre; [done|]. simpl in Heq. lia.
Qed.

(** X14.  The reference file and the default output file are named
    without a directory part, so both are created in the working
    directory; their names differ from each other and from the path of
    the input file, so by default the run overwrites neither its input
    nor its output when it writes the reference file.  An empty [--out]
    counts as absent. *)
Theorem default_names (filename : str) :
  (SLASH ∉ ref_filename filename) ∧
  (SLASH ∉ output_name filename None) ∧
  ref_filename filename ≠ filename ∧
  output_name filename None ≠ filename ∧
  output_name filename None ≠ ref_filename filename ∧
  output_name filename (Some []) = output_name filename None.
Proof.
  assert (SLASH ∉ text "reference_genome_") as H1
    by (apply (bool_decide_unpack _); vm_compute; exact I).
  assert (SLASH ∉ text "cleaned_loci_") as H2
    by (apply (bool_decide_unpack _); vm_compute; exact I).
  unfold ref_filename, output_name. split_and!.
  - by apply prefixed_no_slash.
  - by apply prefixed_no_slash.
  - by apply prefixed_differs.
  - by apply prefixed_differs.
  - intros Heq. vm_compute in Heq. discriminate.
  - reflexivity.
Qed.

(** * Loading what was written from a loaded dictionary *)

Lemma lstrip_head (s : str) c : head (lstrip s) = Some c → isspace c = false.
Proof.
  induction s as [|a s IH]; simpl; [done|].
  destruct (isspace a) eqn:Ha; [done|]. simpl. by intros [= <-].
Qed.

Lemma lstrip_id (s : str) :
  (∀ c, head s = Some c → isspace c = false) → lstrip s = s.
Proof. destruct s as [|a s]; simpl; [done|]. intros H. by rewrite H. Qed.

Lemma lstrip_suffix (s : str) : ∃ u, s = u ++ lstrip s.
Proof.
  induction s as [|a s [u IH]]; simpl; [by exists []|].
  destruct (isspace a).
  - exists (a :: u). simpl. by rewrite <- IH.
  - by exists [].
Qed.

Lemma rstrip_prefix (s : str) : ∃ u, s = rstrip s ++ u.
Proof.
  unfold rstrip. destruct (lstrip_suffix (rev s)) as [u Hu].
  exists (rev u). rewrite <- rev_app_distr, <- Hu. by rewrite rev_involutive.
Qed.

Lemma head_rev (s : str) : head (rev s) = last s.
Proof.
  destruct s as [|c s _] using rev_ind; [done|].
  by rewrite rev_unit, last_snoc.
Qed.

Lemma last_rev (s : str) : last (rev s) = head s.
Proof. by rewrite <- head_rev, rev_involutive. Qed.

Lemma strip_trimmed (s : str) : trimmed (strip s).
Proof.
  unfold strip. split.
  - intros c Hc. destruct (rstrip_prefix (lstrip s)) as [u Hu].
    apply (lstrip_head s). rewrite Hu.
    by destruct (rstrip (lstrip s)).
  - intros c Hc. unfold rstrip in Hc. rewrite last_rev in Hc.
    by eapply lstrip_head.
Qed.

Lemma trimmed_strip (s : str) : trimmed s → strip s = s.
Proof.
  intros [Hh Hl]. unfold strip, rstrip. rewrite (lstrip_id s Hh).
  rewrite lstrip_id; [apply rev_involutive|].
  intros c. rewrite head_rev. apply Hl.
Qed.

Lemma strip_elem (s : str) x : x ∈ strip s → x ∈ s.
Proof.
  unfold strip. intros Hx.
  destruct (rstrip_prefix (lstrip s)) as [u Hu].
  destruct (lstrip_suffix s) as [w Hw].
  rewrite Hw, Hu. apply elem_of_app. right. apply elem_of_app. by left.
Qed.

Lemma trimmed_app (v line : str) :
  trimmed v → trimmed line → line ≠ [] → trimmed (v ++ line).
Proof.
  intros [Hvh Hvl] [Hlh Hll] Hne. split; intros c Hc.
  - destruct v as [|a v]; [by apply Hlh|]. by apply Hvh.
  - rewrite last_app in Hc. destruct (last line) as [c'|] eqn:El.
    + injection Hc as <-. by apply Hll.
    + by apply last_None in El.
Qed.

Lemma strip_no_break (s : str) : no_break s → no_break (strip s).
Proof.
  intros [H1 H2]. split; intros Hin; apply strip_elem in Hin; done.
Qed.

Lemma lines_from_no_break (s : str) : ∀ cur,
  no_break cur → Forall (λ raw, no_break (strip raw)) (lines_from cur s).
Proof.
  assert (∀ cur, no_break cur → no_break (strip (cur ++ [LF]))) as Hline.
  { intros cur Hcur. rewrite strip_snoc_space by done. by apply strip_no_break. }
  induction s as [|c s IH]; intros cur Hcur; simpl.
  - destruct cur; [constructor|]. apply Forall_singleton. by apply strip_no_break.
  - destruct (decide (c = LF)) as [->|Hc].
    + constructor; [by apply Hline|apply IH, no_break_nil].
    + destruct (decide (c = CR)) as [->|Hc'].
      * pose proof (IH [] no_break_nil) as Hs.
        destruct s as [|c' s']; [by apply Forall_singleton, Hline|].
        destruct (decide (c' = LF)) as [->|Hc''].
        -- constructor; [by apply Hline|].
           simpl in Hs. by apply Forall_cons in Hs as [_ Hs].
        -- constructor; [by apply Hline|done].
      * apply IH. apply no_break_app. split; [done|].
        apply no_break_cons. split_and!; try done. apply no_break_nil.
Qed.

Lemma dict_get_elem (d : seqdict) k v : dict_get d k = Some v → (k, v) ∈ d.
Proof.
  induction d as [|[k' v'] d IH]; simpl; [done|].
  destruct (decide (k' = k)) as [->|Hne].
  - intros [= ->]. apply list_elem_of_here.
  - intros H. apply list_elem_of_further. by apply IH.
Qed.

Lemma Forall_dict_set (P : str * str → Prop) (d : seqdict) k v :
  Forall P d → P (k, v) → Forall P (dict_set d k v).
Proof.
  intros Hd Hkv. induction Hd as [|[k' v'] d H Hd IH]; simpl.
  - by apply Forall_singleton.
  - destruct (decide (k' = k)) as [->|Hne]; by constructor.
Qed.

Lemma read_line_well_kept line (d : seqdict) :
  line ≠ [] → trimmed line → no_break line →
  Forall well_kept d → Forall well_kept (read_line line d).2.
Proof.
  intros Hne Htr Hlf Hd. unfold read_line.
  destruct (startswith_marker line) eqn:Hm; simpl.
  - apply Forall_dict_set; [done|]. unfold well_kept. simpl.
    split_and!; try done; try (by split); apply no_break_nil.
  - destruct (last_key d) as [k|]; [|done].
    destruct (dict_get d k) as [v|] eqn:Hv; [|done]. simpl.
    apply Forall_dict_set; [done|].
    apply dict_get_elem in Hv.
    pose proof (proj1 (Forall_forall _ _) Hd _ Hv) as [Hk (Hvm & Hvt & Hvl)].
    simpl in *. split; [done|]. simpl. split_and!.
    + destruct v; [done|]. done.
    + by apply trimmed_app.
    + by apply no_break_app.
Qed.

Lemma read_records_well_kept (f : file) : ∀ d : seqdict,
  Forall (λ raw, no_break (strip raw)) f →
  Forall well_kept d → Forall well_kept (read_records f d).2.
Proof.
  induction f as [|raw f IH]; intros d Hf Hd; simpl; [done|].
  apply Forall_cons in Hf as [Hraw Hf].
  pose proof (strip_trimmed raw) as Htr.
  destruct (strip raw) as [|c line] eqn:E; [done|].
  pose proof (read_line_well_kept (c :: line) d ltac:(done) Htr Hraw Hd) as H1.
  destruct (read_line (c :: line) d) as [[[]|e] d1]; simpl in *; [|done].
  by apply IH.
Qed.

Lemma well_kept_writable (d : seqdict) :
  Forall well_kept d → Forall (λ kv, kv.2 ≠ []) d → writable d = true.
Proof.
  intros Hd Hne. unfold writable. apply forallb_forall. intros [k v] Hin.
  apply list_elem_of_In in Hin.
  pose proof (proj1 (Forall_forall _ _) Hd _ Hin) as [(Hkm & Hkt & Hkl) (Hvm & Hvt & Hvl)].
  pose proof (proj1 (Forall_forall _ _) Hne _ Hin) as Hv.
  simpl in *. unfold writable_record, plain_line. simpl.
  rewrite Hkm, Hvm. simpl.
  rewrite !andb_true_iff, !bool_decide_eq_true.
  split_and!; try done; by apply trimmed_strip.
Qed.

(** X15.  A dictionary that the loader built from a text, and in which
    no sequence is empty, is loaded back unchanged from the text that
    [save_output] writes for it. *)
Theorem reload_written (s : str) (d : seqdict) :
  read_records (open_file s) [] = (Done (), d) →
  Forall (λ kv, kv.2 ≠ []) d →
  read_records (open_file (save_output d)) [] = (Done (), d).
Proof.
  intros Hread Hne.
  assert (Forall well_kept d) as Hd.
  { change d with (Done (), d).2. rewrite <- Hread.
    apply read_records_well_kept; [|constructor].
    apply lines_from_no_break, no_break_nil. }
  apply (read_written d []).
  - simpl. by eapply read_records_keys_distinct.
  - by apply well_kept_writable.
Qed.

Lemma reload_written_witness :
  read_records (open_file (text "  >a
AC
 GT
>b
TT

>c
")) [] = (Done (), [(text ">a", text "ACGT"); (text ">b", text "TT")]) ∧
  Forall (λ kv : str * str, kv.2 ≠ [])
    [(text ">a", text "ACGT"); (text ">b", text "TT")] ∧
  read_records
    (open_file (save_output [(text ">a", text "ACGT"); (text ">b", text "TT")])) [] =
  (Done (), [(text ">a", text "ACGT"); (text ">b", text "TT")]).
Proof.
  assert (read_records (open_file (text "  >a
AC
 GT
>b
TT

>c
")) [] = (Done (), [(text ">a", text "ACGT"); (text ">b", text "TT")])) as Hread
    by (vm_compute; reflexivity).
  assert (Forall (λ kv : str * str, kv.2 ≠ [])
            [(text ">a", text "ACGT"); (text ">b", text "TT")]) as Hne
    by (repeat constructor; simpl; discriminate).
  split; [exact Hread|]. split; [exact Hne|].
  exact (reload_written _ _ Hread Hne).
Defined.

(** * A reference without gaps, and the errors of the loader *)




Lemma dict_get_is_Some (d : seqdict) k :
  k ∈ dict_keys d → is_Some (dict_get d k).
Proof.
  unfold dict_keys. induction d as [|[k' v'] d IH]; simpl; intros H.
  - inversion H.
  - destruct (decide (k' = k)); [by eexists|].
    apply elem_of_cons in H as [H|H]; [congruence|by apply IH].
Qed.

Lemma dict_set_nonempty (d : seqdict) k v : dict_set d k v ≠ [].
Proof. destruct d as [|[k' v'] d]; simpl; [done|]. by destruct (decide _). Qed.

Lemma read_line_nonempty line (d : seqdict) :
  d ≠ [] → ∃ d', read_line line d = (Done (), d') ∧ d' ≠ [].
Proof.
  intros Hd. unfold read_line. destruct (startswith_marker line).
  - eexists. split; [reflexivity|apply dict_set_nonempty].
  - destruct (last_key d) as [k|e] eqn:Hk.
    + destruct (dict_get_is_Some d k (last_key_elem d k Hk)) as [v ->].
      eexists. split; [reflexivity|apply dict_set_nonempty].
    + unfold last_key, dict_keys in Hk.
      destruct d as [|kv d] using rev_ind; [done|].
      rewrite fmap_app in Hk. simpl in Hk. by rewrite last_snoc in Hk.
Qed.

Lemma read_records_nonempty (f : file) : ∀ d : seqdict,
  d ≠ [] → ∃ d', read_records f d = (Done (), d').
Proof.
  induction f as [|raw f IH]; intros d Hd; simpl; [by eexists|].
  destruct (strip raw) as [|c line]; [by eexists|].
  destruct (read_line_nonempty (c :: line) d Hd) as (d1 & -> & Hd1).
  by apply IH.
Qed.

(** X17.  The loader raises nothing but the index error, and raises it
    only on the first line of the file, when that line is not blank and
    is no header line; the dictionary is then empty.  Once a header line
    has been read no line makes the loader fail. *)
Theorem read_records_raises (f : file) (e : exn) (d : seqdict) :
  read_records f [] = (Raised e, d) →
  e = IndexError ∧ d = [] ∧
  ∃ raw f', f = raw :: f' ∧ strip raw ≠ [] ∧
            startswith_marker (strip raw) = false.
Proof.
  destruct f as [|raw f]; simpl; [done|].
  destruct (strip raw) as [|c line] eqn:Hraw; [done|].
  unfold read_line. destruct (startswith_marker (c :: line)) eqn:Hm.
  - destruct (read_records_nonempty f (dict_set [] (c :: line) []))
      as (d' & ->); [apply dict_set_nonempty|done].
  - simpl. intros [= <- <-]. split_and!; try done.
    exists raw, f. by rewrite Hraw.
Qed.

Lemma read_records_raises_witness :
  read_records (open_file (text "ACGT
>a
TT
")) [] = (Raised IndexError, []) ∧
  ∃ raw f', open_file (text "ACGT
>a
TT
") = raw :: f' ∧ strip raw ≠ [] ∧ startswith_marker (strip raw) = false.
Proof.
  assert (read_records (open_file (text "ACGT
>a
TT
")) [] = (Raised IndexError, [])) as H by (vm_compute; reflexivity).
  split; [exact H|].
  exact (proj2 (proj2 (read_records_raises _ _ _ H))).
Defined.

(** * Carriage returns *)

(** A carriage return inside a key ends the line when the written text
    is read back: the record does not come back as it was written. *)
Example carriage_return_no_round_trip :
  open_file (save_output [(text ">a" ++ [CR] ++ text "b", text "AC")]) =
    [text ">a" ++ [LF]; text "b" ++ [LF]; text "AC" ++ [LF]] ∧
  read_records
    (open_file (save_output [(text ">a" ++ [CR] ++ text "b", text "AC")])) [] =
    (Done (), [(text ">a", text "bAC")]).
Proof. split; vm_compute; reflexivity. Qed.
